(** * Edita: the find / count / replace engine of the editor

    A shallow embedding of the search code of [script.js] (class [Edita]):
    [findInText], [findInTextReverse], [countInText], [searchInAllFiles],
    [findNext], [findPrevious], [countOccurrences], [replaceOne] and
    [replaceAll], together with the JavaScript string and regular-expression
    primitives those methods call.

    Modelling conventions.
    - A JavaScript string is a list of code units.  Code units are the
      8-bit characters U+0000..U+00FF ([ascii]); on that range
      [toLowerCase] maps a code unit to one code unit, so offsets into
      [text.toLowerCase()] are offsets into [text].
    - Offsets are in [Z], with [-1] the "not found" value of [indexOf].
    - The recursive methods and the [while] loop take a [nat] bound on the
      number of calls (iterations); [None] stands for a call that never
      returns normally (unbounded recursion or an endless loop). *)

From Stdlib Require Import ZArith Ascii String List Bool Lia Arith Sorted.
Import ListNotations.
Local Open Scope Z_scope.

(* ------------------------------------------------------------------ *)
(** ** JavaScript strings *)

Module JS.

Definition text := list ascii.

Definition lit (s : string) : text := list_ascii_of_string s.

(** [s.length] *)
Definition len (s : text) : Z := Z.of_nat (length s).

Definition code (c : ascii) : N := N_of_ascii c.

(** [String.prototype.toLowerCase] on one code unit: A-Z and the
    Latin-1 capitals U+00C0..U+00DE (without the multiplication sign
    U+00D7) move up by 32. *)
Definition toLowerCaseChar (c : ascii) : ascii :=
  let n := code c in
  if (((65 <=? n) && (n <=? 90)) ||
      ((192 <=? n) && (n <=? 222) && negb (n =? 215)))%N
  then ascii_of_N (n + 32) else c.

Definition toLowerCase (s : text) : text := map toLowerCaseChar s.

(** [/\w/.test(char)] for a one-character string: [A-Za-z0-9_]. *)
Definition isWordChar (c : ascii) : bool :=
  let n := code c in
  (((97 <=? n) && (n <=? 122)) || ((65 <=? n) && (n <=? 90)) ||
   ((48 <=? n) && (n <=? 57)) || (n =? 95))%N.

(** Does [p] occur at the head of [s]? *)
Fixpoint startsWith (p s : text) : bool :=
  match p, s with
  | [], _ => true
  | _ :: _, [] => false
  | a :: p', b :: s' => Ascii.eqb a b && startsWith p' s'
  end.

(** Clamping of a position argument to [0 .. n]. *)
Definition clamp (pos n : Z) : Z := Z.min (Z.max pos 0) n.

(** Left-to-right scan; [k] is the offset of the head of [s]. *)
Fixpoint scanForward (p s : text) (k : Z) : Z :=
  if startsWith p s then k
  else match s with
       | [] => -1
       | _ :: s' => scanForward p s' (k + 1)
       end.

(** [s.indexOf(p, pos)] *)
Definition indexOf (s p : text) (pos : Z) : Z :=
  let start := clamp pos (len s) in
  scanForward p (skipn (Z.to_nat start) s) start.

(** Scan that remembers the last offset where [p] occurs. *)
Fixpoint scanLast (p s : text) (k : Z) (last : Z) : Z :=
  let last' := if startsWith p s then k else last in
  match s with
  | [] => last'
  | _ :: s' => scanLast p s' (k + 1) last'
  end.

(** [s.lastIndexOf(p)] *)
Definition lastIndexOf (s p : text) : Z := scanLast p s 0 (-1).

(** [s.includes(p)] *)
Definition includes (s p : text) : bool := negb (indexOf s p 0 =? -1).

(** [s.substring(a, b)]: both ends clamped, swapped when [a > b]. *)
Definition substring (s : text) (a b : Z) : text :=
  let a' := clamp a (len s) in
  let b' := clamp b (len s) in
  let lo := Z.min a' b' in
  let hi := Z.max a' b' in
  firstn (Z.to_nat (hi - lo)) (skipn (Z.to_nat lo) s).

(** [s.substring(a)] *)
Definition substringFrom (s : text) (a : Z) : text :=
  skipn (Z.to_nat (clamp a (len s))) s.

(** [s[i]] for an index inside the string (every use in the code is
    guarded by a range test). *)
Definition charAt (s : text) (i : Z) : ascii :=
  nth (Z.to_nat i) s " "%char.

(** [s.split(sep)] for a non-empty [sep]: [skip] counts the code units
    of the separator still to be dropped, [cur] is the piece being
    collected, reversed. *)
Fixpoint splitScan (sep s : text) (skip : nat) (cur : text) : list text :=
  match s with
  | [] => [rev cur]
  | c :: s' =>
      match skip with
      | S k => splitScan sep s' k cur
      | O => if startsWith sep s
             then rev cur :: splitScan sep s' (length sep - 1) []
             else splitScan sep s' O (c :: cur)
      end
  end.

(** [s.split(sep)]; an empty separator cuts between all code units. *)
Definition split (s sep : text) : list text :=
  match sep with
  | [] => map (fun c => [c]) s
  | _ :: _ => splitScan sep s O []
  end.

(** [pieces.join(sep)] *)
Fixpoint join (pieces : list text) (sep : text) : text :=
  match pieces with
  | [] => []
  | [p] => p
  | p :: rest => p ++ sep ++ join rest sep
  end.

End JS.

Import JS.

(* ------------------------------------------------------------------ *)
(** ** Regular expressions

    The code builds its regular expressions from the search term with
    every metacharacter escaped ([replace(/[.*+?^${}()|[\]\\]/g, '\\$&')]),
    so each code unit of the term matches itself; the only other atom is
    the assertion [\b].  A pattern is therefore a list of such atoms. *)

Module RegExp.

Inductive atom : Type :=
| WordBoundary
| Literal (c : ascii).

Definition pattern := list atom.

(** [new RegExp(term.replace(/[.*+?^${}()|[\]\\]/g, '\\$&'))] *)
Definition escaped (term : text) : pattern := map Literal term.

(** [new RegExp(`\\b${escaped}\\b`)] *)
Definition wholeWordPattern (term : text) : pattern :=
  WordBoundary :: escaped term ++ [WordBoundary].

(** Upper-casing of one code unit, as used by case-insensitive
    matching.  The sharp s (U+00DF) has no one-unit capital and stays;
    the capitals of U+00B5 and U+00FF lie outside U+0000..U+00FF and are
    the capital of no other code unit, so both are left in place. *)
Definition toUpperCaseChar (c : ascii) : ascii :=
  let n := code c in
  if (((97 <=? n) && (n <=? 122)) ||
      ((224 <=? n) && (n <=? 254) && negb (n =? 247)))%N
  then ascii_of_N (n - 32) else c.

(** [Canonicalize(ch)] under the flag [i]. *)
Definition canonicalize (ignoreCase : bool) (c : ascii) : ascii :=
  if ignoreCase then toUpperCaseChar c else c.

(** [IsWordChar(e)]: is there a word character at offset [e]? *)
Definition isWordAt (s : text) (e : Z) : bool :=
  (0 <=? e) && (e <? len s) && isWordChar (charAt s e).

(** The assertion [\b] at offset [e]. *)
Definition atBoundary (s : text) (e : Z) : bool :=
  xorb (isWordAt s (e - 1)) (isWordAt s e).

(** Match [r] against [s] from offset [e]; the end offset on success. *)
Fixpoint matchAt (ignoreCase : bool) (r : pattern) (s : text) (e : Z)
  : option Z :=
  match r with
  | [] => Some e
  | WordBoundary :: r' =>
      if atBoundary s e then matchAt ignoreCase r' s e else None
  | Literal c :: r' =>
      if (e <? len s) &&
         Ascii.eqb (canonicalize ignoreCase c)
                   (canonicalize ignoreCase (charAt s e))
      then matchAt ignoreCase r' s (e + 1) else None
  end.

(** Try the offsets [i], [i+1], ... ([n] of them). *)
Fixpoint execScan (ignoreCase : bool) (r : pattern) (s : text)
         (n : nat) (i : Z) : option (Z * Z) :=
  match n with
  | O => None
  | S n' =>
      match matchAt ignoreCase r s i with
      | Some e => Some (i, e)
      | None => execScan ignoreCase r s n' (i + 1)
      end
  end.

(** [regex.exec(s)] with [regex.lastIndex = lastIndex]: start and end
    offset of the first match at or after [lastIndex]. *)
Definition exec (ignoreCase : bool) (r : pattern) (s : text)
           (lastIndex : Z) : option (Z * Z) :=
  if len s <? lastIndex then None
  else execScan ignoreCase r s (Z.to_nat (len s - lastIndex + 1)) lastIndex.

(** [regex.test(s)] for a regex without the flag [g]. *)
Definition test (ignoreCase : bool) (r : pattern) (s : text) : bool :=
  match exec ignoreCase r s 0 with
  | Some _ => true
  | None => false
  end.

(** The loop of [s.match(regex)] for a regex with the flag [g]: after a
    match [lastIndex] is its end, moved on by one after an empty match.
    [n] bounds the number of matches collected. *)
Fixpoint matchLoop (ignoreCase : bool) (r : pattern) (s : text)
         (n : nat) (lastIndex : Z) : list (Z * Z) :=
  match n with
  | O => []
  | S n' =>
      match exec ignoreCase r s lastIndex with
      | None => []
      | Some (i, e) =>
          (i, e) :: matchLoop ignoreCase r s n'
                      (if e =? i then e + 1 else e)
      end
  end.

(** [s.match(regex) || []] for a regex with the flag [g]; there are at
    most [s.length + 1] matches, as [lastIndex] grows with each. *)
Definition matchAll (ignoreCase : bool) (r : pattern) (s : text)
  : list (Z * Z) :=
  matchLoop ignoreCase r s (S (length s)) 0.

End RegExp.

Import RegExp.

(* ------------------------------------------------------------------ *)
(** ** The search methods of class [Edita] *)

Module Edita.

(** The whole-word test of [findInText], on the match at [index] of
    [searchText]: [true] when a neighbour is a word character (the
    candidate is rejected). *)
Definition notWholeWord (searchText searchFor : text) (index : Z) : bool :=
  let before := if 0 <? index then charAt searchText (index - 1)
                else " "%char in
  let after := if index + len searchFor <? len searchText
               then charAt searchText (index + len searchFor)
               else " "%char in
  isWordChar before || isWordChar after.

(** [findInText(text, searchTerm, startPos, caseSensitive, wholeWord)];
    [depth] bounds the nesting of the recursive calls. *)
Fixpoint findInText (depth : nat) (text searchTerm : text) (startPos : Z)
         (caseSensitive wholeWord : bool) : option Z :=
  match depth with
  | O => None
  | S depth' =>
      let searchText := if caseSensitive then text else toLowerCase text in
      let searchFor :=
        if caseSensitive then searchTerm else toLowerCase searchTerm in
      let index := indexOf searchText searchFor startPos in
      if wholeWord && negb (index =? -1) then
        if notWholeWord searchText searchFor index
        then findInText depth' text searchTerm (index + 1)
                        caseSensitive wholeWord
        else Some index
      else Some index
  end.

(** [findInTextReverse(text, searchTerm, startPos, caseSensitive,
    wholeWord)]: the search runs in [text.substring(0, startPos)], the
    character before the match is read from that window and the
    character after it from the whole [text]. *)
Fixpoint findInTextReverse (depth : nat) (text searchTerm : text)
         (startPos : Z) (caseSensitive wholeWord : bool) : option Z :=
  match depth with
  | O => None
  | S depth' =>
      let searchText :=
        if caseSensitive then substring text 0 startPos
        else toLowerCase (substring text 0 startPos) in
      let searchFor :=
        if caseSensitive then searchTerm else toLowerCase searchTerm in
      let index := lastIndexOf searchText searchFor in
      if wholeWord && negb (index =? -1) then
        let before := if 0 <? index then charAt searchText (index - 1)
                      else " "%char in
        let after := if index + len searchFor <? len text
                     then charAt text (index + len searchFor)
                     else " "%char in
        if isWordChar before || isWordChar after
        then findInTextReverse depth' text searchTerm index
                               caseSensitive wholeWord
        else Some index
      else Some index
  end.

(** The [while] loop of [countInText]; [n] bounds its iterations. *)
Fixpoint countLoop (n : nat) (searchText searchFor : text)
         (pos count : Z) : option Z :=
  match n with
  | O => None
  | S n' =>
      let pos' := indexOf searchText searchFor pos in
      if pos' =? -1 then Some count
      else countLoop n' searchText searchFor
                     (pos' + len searchFor) (count + 1)
  end.

(** [countInText(text, searchTerm, caseSensitive, wholeWord)] *)
Definition countInText (n : nat) (text searchTerm : text)
           (caseSensitive wholeWord : bool) : option Z :=
  let searchText := if caseSensitive then text else toLowerCase text in
  let searchFor :=
    if caseSensitive then searchTerm else toLowerCase searchTerm in
  if wholeWord then
    let regex := wholeWordPattern searchFor in
    Some (Z.of_nat (length (matchAll (negb caseSensitive) regex text)))
  else countLoop n searchText searchFor 0 0.

(** A tab of the editor (the fields the search reads and writes). *)
Record tab : Type := mkTab {
  id : Z;
  name : text;
  content : text;
  modified : bool
}.

(** An entry [{ lineNum, line }] of [matches]. *)
Record lineMatch : Type := mkLineMatch {
  lineNum : Z;
  line : text
}.

(** An entry [{ tab, matches }] of [fileResults]. *)
Record fileResult : Type := mkFileResult {
  resultTab : tab;
  matches : list lineMatch
}.

(** The accumulators of [searchInAllFiles]. *)
Record searchResult : Type := mkSearchResult {
  totalMatches : Z;
  fileResults : list fileResult
}.

Definition newline : text := ["010"%char].

(** The test made on one line by the callback of [lines.forEach]. *)
Definition lineHasMatch (searchTerm : text) (caseSensitive wholeWord : bool)
           (line : text) : bool :=
  let searchIn := if caseSensitive then line else toLowerCase line in
  let searchFor :=
    if caseSensitive then searchTerm else toLowerCase searchTerm in
  if wholeWord then
    let regex := wholeWordPattern searchFor in
    test (negb caseSensitive) regex line
  else includes searchIn searchFor.

(** [lines.forEach((line, index) => ...)], pushing onto [matches]. *)
Fixpoint forEachLine (searchTerm : text) (caseSensitive wholeWord : bool)
         (lines : list text) (index : Z) (matches : list lineMatch)
  : list lineMatch :=
  match lines with
  | [] => matches
  | line :: rest =>
      forEachLine searchTerm caseSensitive wholeWord rest (index + 1)
        (if lineHasMatch searchTerm caseSensitive wholeWord line
         then matches ++ [mkLineMatch (index + 1) line]
         else matches)
  end.

(** The callback of [this.tabs.forEach]. *)
Definition searchTab (searchTerm : text) (caseSensitive wholeWord : bool)
           (acc : searchResult) (t : tab) : searchResult :=
  let lines := split (content t) newline in
  let matches :=
    forEachLine searchTerm caseSensitive wholeWord lines 0 [] in
  if 0 <? Z.of_nat (length matches) then
    mkSearchResult (totalMatches acc + Z.of_nat (length matches))
                   (fileResults acc ++ [mkFileResult t matches])
  else acc.

(** The scan of [searchInAllFiles]: [totalMatches] and [fileResults]
    after [this.tabs.forEach] (the HTML of the results panel, built from
    the same two values, is left out). *)
Definition searchInAllFiles (tabs : list tab) (searchTerm : text)
           (caseSensitive wholeWord : bool) : searchResult :=
  fold_left (searchTab searchTerm caseSensitive wholeWord) tabs
            (mkSearchResult 0 []).

(** *** The editor and the find dialog *)

(** The text shown in [#findResults]. *)
Inductive status : Type :=
| Blank
| FoundAtPosition (index : Z)
| WrappedToBeginning
| FoundAtLine (lineNumber : Z)
| WrappedToLine (lineNumber : Z)
| NoMatchesFound
| FoundOccurrences (count : Z)
| ReplacedOne
| ReplacedOccurrences (count : Z)
| NoMatchesInAnyFile
| FoundInFiles (total files : Z).

(** The handlers whose [catch] calls [logError]. *)
Inductive failure : Type :=
| FindNextError
| FindPreviousError
| CountError
| ReplaceOneError
| ReplaceAllError.

(** The inputs of the find dialog. *)
Record dialog : Type := mkDialog {
  findInput : text;
  replaceInput : text;
  caseSensitive : bool;
  wholeWord : bool;
  searchScopeCurrent : bool
}.

(** The state the handlers read and write: the textarea ([value] and
    its selection), the tabs, the status text and the errors logged. *)
Record edita : Type := mkEdita {
  value : text;
  selectionStart : Z;
  selectionEnd : Z;
  tabs : list tab;
  activeTabId : Z;
  findResults : status;
  errors : list failure
}.

Definition textEqb (a b : text) : bool :=
  if list_eq_dec ascii_dec a b then true else false.

(** [!searchTerm] *)
Definition isEmpty (s : text) : bool :=
  match s with [] => true | _ :: _ => false end.

(** [this.editor.setSelectionRange(start, end)] *)
Definition setSelectionRange (start end_ : Z) (a : edita) : edita :=
  let e := clamp end_ (len (value a)) in
  let s := Z.min (clamp start (len (value a))) e in
  mkEdita (value a) s e (tabs a) (activeTabId a) (findResults a) (errors a).

(** [this.editor.value = v]: a changed value moves the cursor to the
    end of the text. *)
Definition setValue (v : text) (a : edita) : edita :=
  if textEqb v (value a) then a
  else mkEdita v (len v) (len v) (tabs a) (activeTabId a)
             (findResults a) (errors a).

(** [document.getElementById('findResults').textContent = st] *)
Definition setFindResults (st : status) (a : edita) : edita :=
  mkEdita (value a) (selectionStart a) (selectionEnd a) (tabs a)
        (activeTabId a) st (errors a).

(** [this.logError(...)] in a [catch]. *)
Definition logError (f : failure) (a : edita) : edita :=
  mkEdita (value a) (selectionStart a) (selectionEnd a) (tabs a)
        (activeTabId a) (findResults a) (errors a ++ [f]).

(** The store of [handleInput]: the first tab whose id is [activeTabId]
    takes the editor's value and is marked modified. *)
Fixpoint storeContent (active : Z) (v : text) (ts : list tab) : list tab :=
  match ts with
  | [] => []
  | t :: rest =>
      if id t =? active then mkTab (id t) (name t) v true :: rest
      else t :: storeContent active v rest
  end.

(** [this.handleInput()] *)
Definition handleInput (a : edita) : edita :=
  mkEdita (value a) (selectionStart a) (selectionEnd a)
        (storeContent (activeTabId a) (value a) (tabs a))
        (activeTabId a) (findResults a) (errors a).

(** The call bound given to the recursive searches: one call and one
    more for each code unit of the content. *)
Definition callBound (content : text) : nat := S (length content).

(** [findNext()] *)
Definition findNext (d : dialog) (a : edita) : edita :=
  let searchTerm := findInput d in
  if isEmpty searchTerm then a
  else
    let content := value a in
    let currentPos := selectionStart a + 1 in
    match findInText (callBound content) content searchTerm currentPos
                     (caseSensitive d) (wholeWord d) with
    | None => logError FindNextError a
    | Some index =>
        if negb (index =? -1) then
          setFindResults (FoundAtPosition index)
            (setSelectionRange index (index + len searchTerm) a)
        else
          match findInText (callBound content) content searchTerm 0
                           (caseSensitive d) (wholeWord d) with
          | None => logError FindNextError a
          | Some firstIndex =>
              if negb (firstIndex =? -1) then
                setFindResults WrappedToBeginning
                  (setSelectionRange firstIndex
                     (firstIndex + len searchTerm) a)
              else setFindResults NoMatchesFound a
          end
    end.

(** [textBeforeSelection.split('
').length] *)
Definition lineNumberAt (a : edita) : Z :=
  Z.of_nat (length (split (substring (value a) 0 (selectionStart a))
                          newline)).

(** [findPrevious()] *)
Definition findPrevious (d : dialog) (a : edita) : edita :=
  let searchTerm := findInput d in
  if isEmpty searchTerm then a
  else
    let content := value a in
    let currentPos := selectionStart a - 1 in
    match findInTextReverse (callBound content) content searchTerm
                            currentPos (caseSensitive d) (wholeWord d) with
    | None => logError FindPreviousError a
    | Some index =>
        if negb (index =? -1) then
          let a1 := setSelectionRange index (index + len searchTerm) a in
          setFindResults (FoundAtLine (lineNumberAt a1)) a1
        else
          match findInTextReverse (callBound content) content searchTerm
                                  (len content)
                                  (caseSensitive d) (wholeWord d) with
          | None => logError FindPreviousError a
          | Some lastIndex =>
              if negb (lastIndex =? -1) then
                let a1 := setSelectionRange lastIndex
                            (lastIndex + len searchTerm) a in
                setFindResults (WrappedToLine (lineNumberAt a1)) a1
              else setFindResults NoMatchesFound a
          end
    end.

(** [countOccurrences()] *)
Definition countOccurrences (d : dialog) (a : edita) : edita :=
  let searchTerm := findInput d in
  if isEmpty searchTerm then a
  else if searchScopeCurrent d then
    match countInText (callBound (value a)) (value a) searchTerm
                      (caseSensitive d) (wholeWord d) with
    | None => logError CountError a
    | Some count => setFindResults (FoundOccurrences count) a
    end
  else
    let r := searchInAllFiles (tabs a) searchTerm
                              (caseSensitive d) (wholeWord d) in
    if totalMatches r =? 0 then setFindResults NoMatchesInAnyFile a
    else setFindResults
           (FoundInFiles (totalMatches r)
                         (Z.of_nat (length (fileResults r)))) a.

(** [replaceOne()] *)
Definition replaceOne (d : dialog) (a : edita) : edita :=
  let searchTerm := findInput d in
  let replaceTerm := replaceInput d in
  if isEmpty searchTerm then a
  else
    let start := selectionStart a in
    let end_ := selectionEnd a in
    let selected := substring (value a) start end_ in
    let a1 :=
      if textEqb selected searchTerm then
        let content := value a in
        setFindResults ReplacedOne
          (handleInput
             (setSelectionRange start (start + len replaceTerm)
                (setValue (substring content 0 start ++ replaceTerm ++
                           substringFrom content end_) a)))
      else a in
    findNext d a1.

(** [replaceAll()] *)
Definition replaceAll (d : dialog) (a : edita) : edita :=
  let searchTerm := findInput d in
  let replaceTerm := replaceInput d in
  if isEmpty searchTerm then a
  else
    let originalContent := value a in
    let newContent := join (split originalContent searchTerm) replaceTerm in
    let count :=
      Z.of_nat (length (matchAll false (escaped searchTerm)
                                 originalContent)) in
    setFindResults (ReplacedOccurrences count)
      (handleInput (setValue newContent a)).

End Edita.

Import Edita.

(* ------------------------------------------------------------------ *)
(** ** Vocabulary of the specification *)

(** [p] occurs in [s] at offset [k]. *)
Definition occursAt (s p : text) (k : Z) : Prop :=
  exists pre post, s = pre ++ p ++ post /\ len pre = k.

(** Case normalisation by the option [caseSensitive]. *)
Definition norm (caseSensitive : bool) (s : text) : text :=
  if caseSensitive then s else toLowerCase s.

(** The word-boundary rule for a match of [n] code units at offset [k] of
    [content]: neither neighbour is a word character, a position outside
    the content counting as a non-word character. *)
Definition wholeWordAt (content : text) (n k : Z) : Prop :=
  isWordAt content (k - 1) = false /\ isWordAt content (k + n) = false.

(** Offset [k] is a match of [term] in [content] under the options. *)
Definition qualifies (content term : text) (caseSensitive wholeWord : bool)
           (k : Z) : Prop :=
  occursAt (norm caseSensitive content) (norm caseSensitive term) k /\
  (wholeWord = true -> wholeWordAt content (len term) k).

(** [r] is the least offset at or after [from] that satisfies [P], or
    [-1] when there is none. *)
Definition leastFrom (P : Z -> Prop) (from r : Z) : Prop :=
  (r = -1 /\ forall k, from <= k -> ~ P k) \/
  (from <= r /\ P r /\ forall k, from <= k < r -> ~ P k).


(** Decision of [qualifies] at a given offset. *)
Definition qualifiesb (content term : text) (caseSensitive wholeWord : bool)
           (k : Z) : bool :=
  startsWith (norm caseSensitive term)
             (skipn (Z.to_nat k) (norm caseSensitive content)) &&
  (negb wholeWord ||
   negb (isWordAt content (k - 1)) &&
   negb (isWordAt content (k + len term))).

(** The offsets [0 .. s.length]. *)
Definition offsets (s : text) : list Z :=
  map Z.of_nat (seq 0 (S (length s))).

(** All matches of [term] in [content], in ascending order. *)
Definition occurrences (content term : text) (caseSensitive wholeWord : bool)
  : list Z :=
  filter (qualifiesb content term caseSensitive wholeWord) (offsets content).





(** All code units. *)
Definition allChars : list ascii := map ascii_of_nat (seq 0 256).

(** The lines of a buffer with their 1-based numbers ([index] is the
    0-based number of the first line). *)
Fixpoint numberLines (lines : list text) (index : Z) : list lineMatch :=
  match lines with
  | [] => []
  | l :: rest => mkLineMatch (index + 1) l :: numberLines rest (index + 1)
  end.

(** The matching lines of a buffer: those lines, each once, on which the
    line test succeeds. *)
Definition matchingLines (term : text) (cs ww : bool) (t : tab)
  : list lineMatch :=
  filter (fun m => lineHasMatch term cs ww (line m))
         (numberLines (split (content t) newline) 0).

Definition hasMatchingLine (term : text) (cs ww : bool) (t : tab) : bool :=
  match matchingLines term cs ww t with
  | [] => false
  | _ :: _ => true
  end.

(** The number of matching lines in all buffers. *)
Fixpoint countMatchingLines (term : text) (cs ww : bool) (ts : list tab) : Z :=
  match ts with
  | [] => 0
  | t :: rest => Z.of_nat (length (matchingLines term cs ww t)) +
                 countMatchingLines term cs ww rest
  end.

(** The sum of the lengths of the pieces of a split. *)
Fixpoint totalLen (pieces : list text) : Z :=
  match pieces with
  | [] => 0
  | p :: rest => len p + totalLen rest
  end.

(* ------------------------------------------------------------------ *)
(** ** The editor around the search: tabs, lines and the status bar

    Further methods of class [Edita] ([script.js]), on the same state.
    Left out as before: the DOM of the tab strip and of the panels,
    scrolling, the log of INFO entries and what [saveOpenTabs] writes to
    local storage. *)

Module Editor.

(** [this.tabs.find(t => t.id === tabId)] *)
Definition findTab (tabId : Z) (ts : list tab) : option tab :=
  find (fun t => id t =? tabId) ts.

(** [this.editor.selectionStart = this.editor.selectionEnd = p] *)
Definition setCursor (p : Z) (a : edita) : edita := setSelectionRange p p a.

(** [handleKeydown(e)], [key] being [e.key]: the Tab key puts four spaces
    in place of the selection. *)
Definition handleKeydown (key : text) (a : edita) : edita :=
  if textEqb key (lit "Tab") then
    let start := selectionStart a in
    let end_ := selectionEnd a in
    let value_ := value a in
    setCursor (start + 4)
      (setValue (substring value_ 0 start ++ lit "    " ++
                 substringFrom value_ end_) a)
  else a.

(** [updateLineNumbers()]: the numbers written in the gutter, one per
    line ([Array.from({ length: lines }, (_, i) => i + 1)]). *)
Definition updateLineNumbers (a : edita) : list Z :=
  let lines := length (split (value a) newline) in
  map (fun i => Z.of_nat i + 1) (seq 0 lines).

(** The [for] loop of [updateStatusBar]: [i] is the index of the first
    line of [lines], [pos] its offset; [(1, 1)] when no line is chosen. *)
Fixpoint lineColLoop (lines : list text) (i pos cursorPos : Z) : Z * Z :=
  match lines with
  | [] => (1, 1)
  | l :: rest =>
      if pos + len l >=? cursorPos then (i + 1, cursorPos - pos + 1)
      else lineColLoop rest (i + 1) (pos + len l + 1) cursorPos
  end.

(** What [updateStatusBar] shows (the file size, a rounded quotient of
    floating-point logarithms, is left out). *)
Record statusBar : Type := mkStatusBar {
  fileName : text;
  barLine : Z;
  barCol : Z;
  charCount : Z
}.

(** [updateStatusBar()] *)
Definition updateStatusBar (a : edita) : statusBar :=
  let currentTab := findTab (activeTabId a) (tabs a) in
  let content := value a in
  let lines := split content newline in
  let cursorPos := selectionStart a in
  let lc := lineColLoop lines 0 0 cursorPos in
  mkStatusBar
    (match currentTab with
     | Some t => if isEmpty (name t) then lit "Untitled" else name t
     | None => lit "Untitled"
     end)
    (fst lc) (snd lc) (len content).

(** The [for] loop of [goToLine]: [n] iterations. *)
Fixpoint charCountLoop (lines : list text) (n : nat) (charCount : Z) : Z :=
  match n, lines with
  | S n', l :: rest => charCountLoop rest n' (charCount + len l + 1)
  | _, _ => charCount
  end.

(** [lines[i]?.length || 0] *)
Definition lengthAt (lines : list text) (i : Z) : Z :=
  if (0 <=? i) && (i <? Z.of_nat (length lines))
  then len (nth (Z.to_nat i) lines [])
  else 0.

(** [goToLine(lineNum)] *)
Definition goToLine (lineNum : Z) (a : edita) : edita :=
  let lines := split (value a) newline in
  let n := Z.to_nat (Z.min (lineNum - 1) (Z.of_nat (length lines))) in
  let charCount := charCountLoop lines n 0 in
  setSelectionRange charCount (charCount + lengthAt lines (lineNum - 1)) a.

(** [switchTab(tabId)] *)
Definition switchTab (tabId : Z) (a : edita) : edita :=
  match findTab tabId (tabs a) with
  | None => a
  | Some t =>
      let a1 := setValue (content t) a in
      mkEdita (value a1) (selectionStart a1) (selectionEnd a1) (tabs a1)
              tabId (findResults a1) (errors a1)
  end.






End Editor.

Import Editor.

(** The active tab. *)
Definition activeTab (a : edita) : option tab :=
  findTab (activeTabId a) (tabs a).

(** The state the handlers keep: the tab ids are distinct, the active tab
    exists, and its stored content is the text in the editor. *)
Definition inStep (a : edita) : Prop :=
  NoDup (map id (tabs a)) /\
  exists t, activeTab a = Some t /\ content t = value a.

(** The number of newline characters of a text. *)
Definition newlines (s : text) : nat := count_occ ascii_dec s "010"%char.

(** Two states with the same document: content, tabs and active tab. *)
Definition sameDocument (a b : edita) : Prop :=
  value b = value a /\ tabs b = tabs a /\ activeTabId b = activeTabId a.

(* ------------------------------------------------------------------ *)
(** ** File names and the style-sheet formatter *)

Module Format.

(** What a look-up [langMap[ext]] can give: one of the seven names of the
    object literal, or, for the two keys in lower case that every object
    inherits, the function [Object] and the object [Object.prototype]. *)
Inductive mapValue : Type :=
| Name (language : text)
| ObjectConstructor
| ObjectPrototype.

(** [langMap[ext]]; [None] is [undefined]. *)
Definition langMap (ext : text) : option mapValue :=
  if textEqb ext (lit "js") then Some (Name (lit "javascript"))
  else if textEqb ext (lit "py") then Some (Name (lit "python"))
  else if textEqb ext (lit "html") then Some (Name (lit "html"))
  else if textEqb ext (lit "css") then Some (Name (lit "css"))
  else if textEqb ext (lit "json") then Some (Name (lit "json"))
  else if textEqb ext (lit "md") then Some (Name (lit "markdown"))
  else if textEqb ext (lit "txt") then Some (Name (lit "text"))
  else if textEqb ext (lit "constructor") then Some ObjectConstructor
  else if textEqb ext (lit "__proto__") then Some ObjectPrototype
  else None.

(** [detectLanguage(filename)] *)
Definition detectLanguage (filename : text) : mapValue :=
  let ext := toLowerCase (last (split filename (lit ".")) []) in
  match langMap ext with
  | Some v => v
  | None => Name (lit "text")
  end.

(** The white space of [\s] and of [trim] among the code units
    U+0000..U+00FF: tab, line feed, vertical tab, form feed, carriage
    return, space and no-break space. *)
Definition isSpace (c : ascii) : bool :=
  let n := code c in
  (((9 <=? n) && (n <=? 13)) || (n =? 32) || (n =? 160))%N.

(** [text.replace(/\s+/g, ' ')]; [inRun] tells that the code unit before
    was white space. *)
Fixpoint collapseSpaces (s : text) (inRun : bool) : text :=
  match s with
  | [] => []
  | c :: s' =>
      if isSpace c
      then if inRun then collapseSpaces s' true
           else " "%char :: collapseSpaces s' true
      else c :: collapseSpaces s' false
  end.

Fixpoint trimStart (s : text) : text :=
  match s with
  | [] => []
  | c :: s' => if isSpace c then trimStart s' else s
  end.

(** [s.trim()] *)
Definition trim (s : text) : text := rev (trimStart (rev (trimStart s))).

(** [tab.repeat(indent)] for [tab = '  '] *)
Definition indentation (indent : Z) : text :=
  concat (repeat (lit "  ") (Z.to_nat indent)).

(** [s.endsWith(suffix)] *)
Definition endsWith (s suffix : text) : bool :=
  startsWith (rev suffix) (rev s).

(** [nextChar && nextChar !== '}'], [nextChar] being [text[i + 1]]. *)
Definition nextIsNotClosing (rest : text) : bool :=
  match rest with
  | [] => false
  | c :: _ => negb (Ascii.eqb c "}"%char)
  end.

(** The [for] loop of [formatCss] over the code units still to come. *)
Fixpoint formatCssLoop (text formatted : JS.text) (indent : Z) : JS.text :=
  match text with
  | [] => formatted
  | char :: rest =>
      if Ascii.eqb char "{"%char then
        formatCssLoop rest (formatted ++ lit " {" ++ newline) (indent + 1)
      else if Ascii.eqb char "}"%char then
        let indent' := Z.max 0 (indent - 1) in
        let formatted' :=
          formatted ++ newline ++ indentation indent' ++ lit "}" in
        formatCssLoop rest
          (if nextIsNotClosing rest then formatted' ++ newline ++ newline
           else formatted')
          indent'
      else if Ascii.eqb char ";"%char && (0 <? indent) then
        let formatted' := formatted ++ ";"%char :: newline in
        formatCssLoop rest
          (if nextIsNotClosing rest then formatted' ++ indentation indent
           else formatted')
          indent
      else if Ascii.eqb char " "%char && endsWith formatted newline then
        formatCssLoop rest formatted indent
      else
        let formatted' := formatted ++ [char] in
        formatCssLoop rest
          (if Ascii.eqb char "010"%char && nextIsNotClosing rest &&
              negb (endsWith formatted' (indentation indent))
           then formatted' ++ indentation indent
           else formatted')
          indent
  end.

(** [formatCss(text)] *)
Definition formatCss (text : JS.text) : JS.text :=
  trim (formatCssLoop (trim (collapseSpaces text false)) [] 0).

(** [text.replace(/>\s+</g, '><')]; [drop] tells that the scan is inside
    the white space of a match, which is left out. *)
Definition gapAhead (s : text) : bool :=
  match s with
  | [] => false
  | c :: _ =>
      isSpace c &&
      match trimStart s with
      | d :: _ => Ascii.eqb d "<"%char
      | [] => false
      end
  end.

Fixpoint closeGaps (s : text) (drop : bool) : text :=
  match s with
  | [] => []
  | c :: s' =>
      if drop && isSpace c then closeGaps s' true
      else c :: closeGaps s' (Ascii.eqb c ">"%char && gapAhead s')
  end.

(** A match of [[^>]*>] at the head of [s]: the match and what follows. *)
Fixpoint untilClose (s : text) : option (text * text) :=
  match s with
  | [] => None
  | c :: s' =>
      if Ascii.eqb c ">"%char then Some ([c], s')
      else match untilClose s' with
           | Some (t, r) => Some (c :: t, r)
           | None => None
           end
  end.

(** A match of [<[^>]+>] at the head of [s]. *)
Definition tagAt (s : text) : option (text * text) :=
  match s with
  | c :: d :: s' =>
      if Ascii.eqb c "<"%char && negb (Ascii.eqb d ">"%char) then
        match untilClose s' with
        | Some (t, r) => Some (c :: d :: t, r)
        | None => None
        end
      else None
  | _ => None
  end.

(** [text.split(/(<[^>]+>)/g)]: the pieces between the tags and, for the
    capturing group, the tags themselves.  [skip] counts the code units
    of a tag still to be passed, [cur] is the piece being collected,
    reversed. *)
Fixpoint splitTags (s : text) (skip : nat) (cur : text) : list text :=
  match s with
  | [] => [rev cur]
  | c :: s' =>
      match skip with
      | S k => splitTags s' k cur
      | O =>
          match tagAt s with
          | Some (t, _) => rev cur :: t :: splitTags s' (length t - 1) []
          | None => splitTags s' O (c :: cur)
          end
      end
  end.

(** The element names of the regular expression in [formatXmlHtml]. *)
Definition voidElements : list text :=
  map lit ["br"; "hr"; "img"; "input"; "link"; "meta"; "area"; "base";
           "col"; "command"; "embed"; "keygen"; "param"; "source";
           "track"; "wbr"]%string.

(** [[^>]*>$] on the whole of [s]. *)
Fixpoint closesTag (s : text) : bool :=
  match s with
  | [] => false
  | c :: s' =>
      match s' with
      | [] => Ascii.eqb c ">"%char
      | _ :: _ => negb (Ascii.eqb c ">"%char) && closesTag s'
      end
  end.

(** [/^<(br|hr|...|wbr)[^>]*>$/i.test(token)] *)
Definition isVoidTag (token : text) : bool :=
  startsWith (lit "<") token &&
  existsb (fun name =>
             match matchAt true (escaped name) token 1 with
             | Some e => closesTag (substringFrom token e)
             | None => false
             end)
          voidElements.

(** The [for] loop of [formatXmlHtml] over the tokens still to come. *)
Fixpoint formatXmlHtmlLoop (tokens : list text) (formatted : text)
         (indent : Z) : text :=
  match tokens with
  | [] => formatted
  | token :: rest =>
      if startsWith (lit "</") token then
        let indent' := Z.max 0 (indent - 1) in
        formatXmlHtmlLoop rest
          (formatted ++ indentation indent' ++ token ++ newline) indent'
      else if startsWith (lit "<") token then
        let isSelfClosing := endsWith token (lit "/>") || isVoidTag token in
        let isComment := startsWith (lit "<!--") token in
        formatXmlHtmlLoop rest
          (formatted ++ indentation indent ++ token ++ newline)
          (if negb isSelfClosing && negb isComment then indent + 1
           else indent)
      else if negb (isEmpty (trim token)) then
        formatXmlHtmlLoop rest
          (formatted ++ indentation indent ++ trim token ++ newline) indent
      else formatXmlHtmlLoop rest formatted indent
  end.

(** [formatXmlHtml(text)] *)
Definition formatXmlHtml (text : JS.text) : JS.text :=
  let tokens :=
    filter (fun t => negb (isEmpty (trim t)))
           (splitTags (closeGaps text false) 0 []) in
  trim (formatXmlHtmlLoop tokens [] 0).

End Format.

Import Format.

(** What is left of a text when its white space is taken out. *)
Definition withoutSpaces (s : text) : text :=
  filter (fun c => negb (isSpace c)) s.

(* ------------------------------------------------------------------ *)
(** ** Facts about the string primitives *)

Lemma len_nonneg (s : text) : 0 <= len s.
Proof. unfold len; lia. Qed.

Lemma len_app (s t : text) : len (s ++ t) = len s + len t.
Proof. unfold len; rewrite length_app; lia. Qed.

Lemma len_toLowerCase (s : text) : len (toLowerCase s) = len s.
Proof. unfold len, toLowerCase; now rewrite length_map. Qed.

Lemma len_norm (cs : bool) (s : text) : len (norm cs s) = len s.
Proof. destruct cs; simpl; auto using len_toLowerCase. Qed.

Lemma length_norm (cs : bool) (s : text) : length (norm cs s) = length s.
Proof. destruct cs; simpl; auto. unfold toLowerCase; apply length_map. Qed.

Lemma isWordChar_toLowerCaseChar (c : ascii) :
  isWordChar (toLowerCaseChar c) = isWordChar c.
Proof. destruct c as [[] [] [] [] [] [] [] []]; reflexivity. Qed.

Lemma charAt_toLowerCase (s : text) (i : Z) :
  charAt (toLowerCase s) i = toLowerCaseChar (charAt s i).
Proof.
  unfold charAt, toLowerCase.
  change " "%char with (toLowerCaseChar " "%char) at 1.
  apply map_nth.
Qed.

Lemma isWordChar_charAt_norm (cs : bool) (s : text) (i : Z) :
  isWordChar (charAt (norm cs s) i) = isWordChar (charAt s i).
Proof.
  destruct cs; simpl; auto.
  now rewrite charAt_toLowerCase, isWordChar_toLowerCaseChar.
Qed.


Lemma startsWith_app (p post : text) : startsWith p (p ++ post) = true.
Proof.
  induction p as [|a p IH]; simpl; auto.
  now rewrite Ascii.eqb_refl, IH.
Qed.

Lemma startsWith_inv (p : text) :
  forall s, startsWith p s = true -> exists post, s = p ++ post.
Proof.
  induction p as [|a p IH]; intros s H; simpl in *.
  - now exists s.
  - destruct s as [|b s]; [discriminate|].
    apply andb_true_iff in H as [Hab Hs].
    apply Ascii.eqb_eq in Hab; subst b.
    destruct (IH _ Hs) as [post ->]. now exists post.
Qed.

Lemma occursAt_iff (s p : text) (k : Z) :
  occursAt s p k <->
  0 <= k <= len s /\ startsWith p (skipn (Z.to_nat k) s) = true.
Proof.
  split.
  - intros (pre & post & -> & <-). split.
    + rewrite len_app. pose proof (len_nonneg pre).
      pose proof (len_nonneg (p ++ post)). lia.
    + unfold len. rewrite Nat2Z.id, skipn_app, skipn_all, Nat.sub_diag.
      simpl. apply startsWith_app.
  - intros [Hk H]. apply startsWith_inv in H as [post Hp].
    exists (firstn (Z.to_nat k) s), post. split.
    + rewrite <- Hp. symmetry. apply firstn_skipn.
    + unfold len in *. rewrite length_firstn. lia.
Qed.

Lemma occursAt_bound (s p : text) (k : Z) :
  occursAt s p k -> 0 <= k /\ k + len p <= len s.
Proof.
  intros (pre & post & -> & <-). rewrite !len_app.
  pose proof (len_nonneg pre). pose proof (len_nonneg post). lia.
Qed.

(** *** [indexOf] *)

Lemma clamp_range (pos n : Z) : 0 <= n -> 0 <= clamp pos n <= n.
Proof. unfold clamp; lia. Qed.

Lemma clamp_id (pos n : Z) : 0 <= pos <= n -> clamp pos n = pos.
Proof. unfold clamp; lia. Qed.

Lemma scanForward_spec (p : text) :
  forall (s : text) (k0 : Z), 0 <= k0 ->
    (scanForward p s k0 = -1 /\
     forall j, (j <= length s)%nat -> startsWith p (skipn j s) = false) \/
    (exists j, scanForward p s k0 = k0 + Z.of_nat j /\ (j <= length s)%nat /\
               startsWith p (skipn j s) = true /\
               forall i, (i < j)%nat -> startsWith p (skipn i s) = false).
Proof.
  induction s as [|c s IH]; intros k0 Hk0; simpl scanForward.
  - destruct (startsWith p []) eqn:E.
    + right. exists O. simpl. repeat split; auto; try lia.
    + left. split; auto. intros j Hj. simpl in Hj.
      replace j with O by lia. exact E.
  - destruct (startsWith p (c :: s)) eqn:E.
    + right. exists O. simpl. repeat split; auto; try lia.
    + destruct (IH (k0 + 1)) as [[Hr Hall] | (j & Hr & Hj & Hat & Hbefore)];
        [lia | |].
      * left. split; auto. intros [|j] Hj; simpl in *; auto.
        apply Hall; lia.
      * right. exists (S j). simpl. repeat split; auto; try lia.
        intros [|i] Hi; simpl; auto. apply Hbefore; lia.
Qed.

Lemma indexOf_spec (s p : text) (pos : Z) :
  leastFrom (occursAt s p) (clamp pos (len s)) (indexOf s p pos).
Proof.
  unfold indexOf, leastFrom.
  pose proof (clamp_range pos (len s) (len_nonneg s)) as Hc.
  set (c := clamp pos (len s)) in *.
  assert (Hlen : length (skipn (Z.to_nat c) s) = (length s - Z.to_nat c)%nat)
    by apply length_skipn.
  destruct (scanForward_spec p (skipn (Z.to_nat c) s) c)
    as [[Hr Hall] | (j & Hr & Hj & Hat & Hbefore)]; [lia | |].
  - left. split; auto. intros k Hk Hocc.
    apply occursAt_iff in Hocc as [Hkb Hst].
    specialize (Hall (Z.to_nat k - Z.to_nat c)%nat).
    rewrite skipn_skipn in Hall.
    replace (Z.to_nat k - Z.to_nat c + Z.to_nat c)%nat with (Z.to_nat k)
      in Hall by lia.
    rewrite Hall in Hst; [discriminate|]. unfold len in *. lia.
  - right. rewrite Hr. unfold len in *. split; [lia|]. split.
    + apply occursAt_iff. unfold len. split; [lia|].
      rewrite skipn_skipn in Hat.
      replace (Z.to_nat (c + Z.of_nat j)) with (j + Z.to_nat c)%nat by lia.
      exact Hat.
    + intros k Hk Hocc. apply occursAt_iff in Hocc as [Hkb Hst].
      specialize (Hbefore (Z.to_nat k - Z.to_nat c)%nat).
      rewrite skipn_skipn in Hbefore.
      replace (Z.to_nat k - Z.to_nat c + Z.to_nat c)%nat with (Z.to_nat k)
        in Hbefore by lia.
      rewrite Hbefore in Hst; [discriminate|]. lia.
Qed.

Lemma indexOf_found (s p : text) (pos : Z) :
  indexOf s p pos <> -1 ->
  clamp pos (len s) <= indexOf s p pos /\ occursAt s p (indexOf s p pos).
Proof.
  destruct (indexOf_spec s p pos) as [[H _] | (H1 & H2 & _)]; intuition.
Qed.

(** *** The whole-word test *)

Lemma isWordAt_charAt (s : text) (i : Z) :
  0 <= i -> isWordAt s i = isWordChar (charAt s i).
Proof.
  intros Hi. unfold isWordAt.
  destruct (Z.leb_spec 0 i); [|lia].
  destruct (Z.ltb_spec i (len s)); simpl; auto.
  unfold charAt. rewrite nth_overflow; [reflexivity|]. unfold len in *. lia.
Qed.

Lemma isWordAt_outside (s : text) (i : Z) :
  i < 0 \/ len s <= i -> isWordAt s i = false.
Proof.
  intros H. unfold isWordAt.
  destruct (Z.leb_spec 0 i); simpl; auto.
  destruct (Z.ltb_spec i (len s)); simpl; auto. lia.
Qed.

Lemma notWholeWord_false_iff (cs : bool) (content term : text) (k : Z) :
  0 <= k ->
  notWholeWord (norm cs content) (norm cs term) k = false <->
  wholeWordAt content (len term) k.
Proof.
  intros Hk. unfold notWholeWord, wholeWordAt.
  rewrite orb_false_iff, !len_norm.
  pose proof (len_nonneg term) as Hn.
  assert (Hb : isWordChar (if 0 <? k then charAt (norm cs content) (k - 1)
                           else " "%char) = isWordAt content (k - 1)).
  { destruct (Z.ltb_spec 0 k).
    - rewrite isWordChar_charAt_norm, isWordAt_charAt; auto; lia.
    - rewrite isWordAt_outside; auto; lia. }
  assert (Ha : isWordChar (if k + len term <? len content
                           then charAt (norm cs content) (k + len term)
                           else " "%char) = isWordAt content (k + len term)).
  { destruct (Z.ltb_spec (k + len term) (len content)).
    - rewrite isWordChar_charAt_norm, isWordAt_charAt; auto; lia.
    - rewrite isWordAt_outside; auto. }
  rewrite Hb, Ha. tauto.
Qed.

(** *** [findInText] *)

Lemma len_nonempty (s : text) : s <> [] -> 1 <= len s.
Proof. destruct s; [congruence|]. unfold len; simpl; lia. Qed.

Lemma findInText_unfold (depth : nat) (content term : text) (start : Z)
      (cs ww : bool) :
  findInText (S depth) content term start cs ww =
  let index := indexOf (norm cs content) (norm cs term) start in
  if ww && negb (index =? -1) then
    if notWholeWord (norm cs content) (norm cs term) index
    then findInText depth content term (index + 1) cs ww
    else Some index
  else Some index.
Proof. reflexivity. Qed.

Lemma findInText_spec (content term : text) (cs ww : bool) :
  term <> [] ->
  forall (depth : nat) (start : Z),
    len content - clamp start (len content) < Z.of_nat depth ->
    exists r, findInText depth content term start cs ww = Some r /\
              leastFrom (qualifies content term cs ww)
                        (clamp start (len content)) r.
Proof.
  intros Hterm. induction depth as [|depth IH]; intros start Hdepth.
  - pose proof (clamp_range start (len content) (len_nonneg content)). lia.
  - rewrite findInText_unfold. cbv zeta.
    pose proof (indexOf_spec (norm cs content) (norm cs term) start) as Hidx.
    rewrite len_norm in Hidx.
    set (index := indexOf (norm cs content) (norm cs term) start) in *.
    set (c := clamp start (len content)) in *.
    destruct Hidx as [[Hr Hnone] | (Hge & Hocc & Hmin)].
    + rewrite Hr. simpl. rewrite andb_false_r.
      exists (-1). split; auto. left. split; auto.
      intros k Hk [Hq _]. exact (Hnone k Hk Hq).
    + pose proof (occursAt_bound _ _ _ Hocc) as [H0 Hend].
      rewrite !len_norm in Hend.
      pose proof (len_nonempty term Hterm) as Hn.
      pose proof (clamp_range start (len content) (len_nonneg content)) as Hc.
      fold c in Hc.
      destruct (Z.eqb_spec index (-1)); [lia|]. simpl negb.
      rewrite andb_true_r. destruct ww.
      * destruct (notWholeWord (norm cs content) (norm cs term) index) eqn:Hw.
        -- destruct (IH (index + 1)) as (r & Hr & Hleast).
           { rewrite clamp_id; lia. }
           exists r. split; auto.
           rewrite clamp_id in Hleast by lia.
           assert (Hrej : ~ qualifies content term cs true index).
           { intros [_ Hq]. apply (notWholeWord_false_iff cs) in Hq; auto.
             congruence. }
           assert (Hskip : forall k, c <= k < index + 1 ->
                                     ~ qualifies content term cs true k).
           { intros k Hk. destruct (Z.eq_dec k index) as [->|]; auto.
             intros [Hq _]. apply (Hmin k); auto. lia. }
           destruct Hleast as [[-> Hnone] | (Hge' & Hq & Hmin')].
           ++ left. split; auto. intros k Hk.
              destruct (Z_lt_le_dec k (index + 1));
                [apply Hskip | apply Hnone]; lia.
           ++ right. split; [lia|]. split; auto. intros k Hk.
              destruct (Z_lt_le_dec k (index + 1));
                [apply Hskip | apply Hmin']; lia.
        -- exists index. split; auto. right. split; auto. split.
           ++ split; auto. intros _.
              apply (notWholeWord_false_iff cs); auto.
           ++ intros k Hk [Hq _]. exact (Hmin k Hk Hq).
      * exists index. split; auto. right. split; auto. split.
        -- split; auto. discriminate.
        -- intros k Hk [Hq _]. exact (Hmin k Hk Hq).
Qed.

Lemma findInText_callBound (content term : text) (start : Z) (cs ww : bool) :
  term <> [] ->
  exists r, findInText (callBound content) content term start cs ww = Some r /\
            leastFrom (qualifies content term cs ww)
                      (clamp start (len content)) r.
Proof.
  intros Hterm. apply findInText_spec; auto.
  pose proof (clamp_range start (len content) (len_nonneg content)).
  unfold callBound, len in *. lia.
Qed.

(** *** [lastIndexOf] and [findInTextReverse] *)



Lemma substring_0 (s : text) (n : Z) :
  substring s 0 n = firstn (Z.to_nat (clamp n (len s))) s.
Proof.
  unfold substring.
  pose proof (clamp_range n (len s) (len_nonneg s)).
  rewrite (clamp_id 0) by (pose proof (len_nonneg s); lia).
  rewrite Z.min_l, Z.max_r by lia. simpl. now rewrite Z.sub_0_r.
Qed.









(* ------------------------------------------------------------------ *)
(** ** Forward search with [wholeWord] *)



(* ------------------------------------------------------------------ *)
(** ** Termination of the whole-word retries *)



(* ------------------------------------------------------------------ *)
(** ** The empty pattern *)

Lemma indexOf_empty (s : text) (pos : Z) : indexOf s [] pos = clamp pos (len s).
Proof.
  unfold indexOf. now destruct (skipn (Z.to_nat (clamp pos (len s))) s).
Qed.

(** Without its callers' guard [findInText] does not reject an empty
    pattern: it reports a match at offset 0 of "abc". *)
Lemma findInText_empty_pattern_found :
  ~ (forall (content : text) (start : Z) (cs ww : bool),
        findInText (callBound content) content [] start cs ww = Some (-1)).
Proof.
  intros H. specialize (H (lit "abc") 0 true false). discriminate H.
Qed.

(** With [wholeWord] the empty pattern can even keep [findInText] calling
    itself for ever: at the end of "a" every retry finds the same empty
    match again. *)
Lemma findInText_empty_pattern_unbounded (cs : bool) :
  forall (depth : nat) (start : Z),
    1 <= start -> findInText depth (lit "a") [] start cs true = None.
Proof.
  induction depth as [|depth IH]; intros start Hstart; [reflexivity|].
  rewrite findInText_unfold. cbv zeta.
  replace (norm cs []) with (@nil ascii) by (now destruct cs).
  rewrite indexOf_empty, len_norm.
  change (len (lit "a")) with 1.
  replace (clamp start 1) with 1 by (unfold clamp; lia).
  replace (notWholeWord (norm cs (lit "a")) [] 1) with true
    by (now destruct cs).
  simpl. apply IH. lia.
Qed.

(** C4 (amended).  The empty pattern is turned away by the handlers, not
    by [findInText]: [findNext], [findPrevious], [countOccurrences],
    [replaceOne] and [replaceAll] return at once when the search field is
    empty and leave the editor, the tabs, the status text and the error
    log as they were; [findInText] called with an empty pattern and
    without [wholeWord] returns the clamped start offset. *)
Theorem empty_pattern_guarded (d : dialog) (a : edita) :
  findInput d = [] ->
  findNext d a = a /\
  findPrevious d a = a /\
  countOccurrences d a = a /\
  replaceOne d a = a /\
  replaceAll d a = a /\
  (forall depth content start cs,
      findInText (S depth) content [] start cs false =
      Some (clamp start (len content))).
Proof.
  intros Hempty.
  unfold findNext, findPrevious, countOccurrences, replaceOne, replaceAll.
  rewrite Hempty. cbv zeta. simpl isEmpty. cbv iota.
  do 5 (split; [reflexivity|]).
  intros depth content start cs. rewrite findInText_unfold. cbv zeta.
  replace (norm cs []) with (@nil ascii) by (now destruct cs).
  now rewrite indexOf_empty, len_norm.
Qed.

Lemma empty_pattern_guarded_witness :
  let d := mkDialog [] (lit "x") false true true in
  let a := mkEdita (lit "abc") 1 2 [mkTab 0 (lit "Untitled") (lit "abc") false]
                 0 Blank [] in
  findInput d = [] /\ replaceAll d a = a.
Proof.
  intros d a. split; [reflexivity|].
  exact (proj1 (proj2 (proj2 (proj2 (proj2
           (empty_pattern_guarded d a eq_refl)))))).
Defined.

(* ------------------------------------------------------------------ *)
(** ** The regular expressions of the whole-word count *)

Lemma allChars_complete (c : ascii) : In c allChars.
Proof.
  unfold allChars. rewrite <- (ascii_nat_embedding c).
  apply in_map, in_seq. pose proof (nat_ascii_bounded c). lia.
Qed.

(** Two code units have the same capital exactly when they have the same
    small letter (checked on all pairs). *)
Lemma sameCase_check :
  forallb (fun a =>
    forallb (fun b =>
      Bool.eqb (Ascii.eqb (toUpperCaseChar a) (toUpperCaseChar b))
               (Ascii.eqb (toLowerCaseChar a) (toLowerCaseChar b)))
      allChars) allChars = true.
Proof. vm_compute. reflexivity. Qed.

Lemma sameCase (a b : ascii) :
  Ascii.eqb (toUpperCaseChar a) (toUpperCaseChar b) =
  Ascii.eqb (toLowerCaseChar a) (toLowerCaseChar b).
Proof.
  pose proof sameCase_check as H.
  rewrite forallb_forall in H. specialize (H a (allChars_complete a)).
  rewrite forallb_forall in H. specialize (H b (allChars_complete b)).
  now apply eqb_prop in H.
Qed.

Lemma toLowerCaseChar_idem (c : ascii) :
  toLowerCaseChar (toLowerCaseChar c) = toLowerCaseChar c.
Proof. destruct c as [[] [] [] [] [] [] [] []]; reflexivity. Qed.

(** Comparison of a case-normalised term under the regex's case rule. *)
Lemma canonicalize_norm (cs : bool) (c d : ascii) :
  let c' := if cs then c else toLowerCaseChar c in
  Ascii.eqb (canonicalize (negb cs) c') (canonicalize (negb cs) d) =
  Ascii.eqb c' (if cs then d else toLowerCaseChar d).
Proof.
  destruct cs; simpl; auto.
  now rewrite sameCase, toLowerCaseChar_idem.
Qed.

Lemma norm_cons (cs : bool) (c : ascii) (s : text) :
  norm cs (c :: s) = (if cs then c else toLowerCaseChar c) :: norm cs s.
Proof. now destruct cs. Qed.


Lemma norm_skipn (cs : bool) (n : nat) (s : text) :
  norm cs (skipn n s) = skipn n (norm cs s).
Proof. destruct cs; simpl; auto. unfold toLowerCase. now rewrite skipn_map. Qed.

Lemma skipn_charAt (s : text) (e : Z) :
  0 <= e < len s ->
  skipn (Z.to_nat e) s = charAt s e :: skipn (Z.to_nat (e + 1)) s.
Proof.
  intros He. unfold charAt, len in *.
  replace (Z.to_nat (e + 1)) with (S (Z.to_nat e)) by lia.
  assert (Hlt : (Z.to_nat e < length s)%nat) by lia.
  revert Hlt. generalize (Z.to_nat e) as n. clear He.
  induction s as [|c s IH]; intros [|n] Hn; simpl in *; try lia; auto.
  apply IH. lia.
Qed.

(** The escaped term matches at [e] exactly when the case-normalised term
    occurs at [e] in the case-normalised subject. *)
Lemma matchAt_escaped (cs : bool) (subject : text) (r : pattern) :
  forall (term : text) (e : Z), 0 <= e ->
    matchAt (negb cs) (escaped (norm cs term) ++ r) subject e =
    if startsWith (norm cs term) (skipn (Z.to_nat e) (norm cs subject))
    then matchAt (negb cs) r subject (e + len term)
    else None.
Proof.
  induction term as [|c term IH]; intros e He.
  - replace (norm cs []) with (@nil ascii) by (now destruct cs).
    simpl. now rewrite Z.add_0_r.
  - rewrite norm_cons. simpl escaped. simpl List.app.
    cbn [matchAt]. destruct (Z.ltb_spec e (len subject)) as [Hlt|Hge].
    + rewrite <- norm_skipn, skipn_charAt, norm_cons by lia.
      cbn [startsWith]. rewrite canonicalize_norm. cbv zeta.
      destruct (Ascii.eqb _ _); simpl; auto.
      unfold escaped in IH. rewrite IH by lia. rewrite norm_skipn.
      replace (e + 1 + len term) with (e + len (c :: term))
        by (unfold len; simpl length; lia).
      reflexivity.
    + rewrite skipn_all2 by (rewrite length_norm; unfold len in *; lia).
      reflexivity.
Qed.





(** The condition on the ends of the pattern is needed: "--" in "a -- b"
    passes the neighbour test of [findInText] at offset 2, but [\b--\b]
    matches nowhere, as there is no word boundary next to a hyphen that
    stands between spaces. *)
Lemma wholeWord_tests_differ_without_word_ends :
  findInText (callBound (lit "a -- b")) (lit "a -- b") (lit "--") 0 true true
  = Some 2 /\
  countInText (callBound (lit "a -- b")) (lit "a -- b") (lit "--") true true
  = Some 0.
Proof. split; reflexivity. Qed.

(* ------------------------------------------------------------------ *)
(** ** Search in all files *)

Section SearchAll.

Variables (term : text) (cs ww : bool).

Lemma forEachLine_spec :
  forall (lines : list text) (index : Z) (acc : list lineMatch),
    forEachLine term cs ww lines index acc =
    acc ++ filter (fun m => lineHasMatch term cs ww (line m))
                  (numberLines lines index).
Proof.
  induction lines as [|l lines IH]; intros index acc; simpl.
  - now rewrite app_nil_r.
  - rewrite IH. destruct (lineHasMatch term cs ww l); auto.
    now rewrite <- app_assoc.
Qed.

Lemma searchTab_spec (acc : searchResult) (t : tab) :
  searchTab term cs ww acc t =
  if hasMatchingLine term cs ww t
  then mkSearchResult
         (totalMatches acc + Z.of_nat (length (matchingLines term cs ww t)))
         (fileResults acc ++ [mkFileResult t (matchingLines term cs ww t)])
  else acc.
Proof.
  unfold searchTab, hasMatchingLine. rewrite forEachLine_spec, app_nil_l.
  fold (matchingLines term cs ww t).
  now destruct (matchingLines term cs ww t).
Qed.

Lemma searchInAllFiles_fold :
  forall (ts : list tab) (acc : searchResult),
    fold_left (searchTab term cs ww) ts acc =
    mkSearchResult
      (totalMatches acc + countMatchingLines term cs ww ts)
      (fileResults acc ++
       map (fun t => mkFileResult t (matchingLines term cs ww t))
           (filter (hasMatchingLine term cs ww) ts)).
Proof.
  induction ts as [|t ts IH]; intros acc; simpl.
  - rewrite Z.add_0_r, app_nil_r. now destruct acc.
  - rewrite IH, searchTab_spec.
    destruct (hasMatchingLine term cs ww t) eqn:E; simpl.
    + rewrite <- app_assoc. simpl. f_equal. lia.
    + unfold hasMatchingLine in E.
      destruct (matchingLines term cs ww t); [|discriminate].
      reflexivity.
Qed.

End SearchAll.

Lemma numberLines_above (lines : list text) :
  forall (index : Z) (m : lineMatch),
    In m (numberLines lines index) -> index < lineNum m.
Proof.
  induction lines as [|l lines IH]; intros index m; simpl; [tauto|].
  intros [<- | Hin]; simpl; [lia|]. apply IH in Hin. lia.
Qed.

Lemma numberLines_nth (lines : list text) :
  forall (index : Z) (m : lineMatch),
    In m (numberLines lines index) <->
    index < lineNum m /\
    nth_error lines (Z.to_nat (lineNum m - index - 1)) = Some (line m).
Proof.
  induction lines as [|l lines IH]; intros index m; simpl.
  - split; [tauto|]. intros [_ H]. now destruct (Z.to_nat _).
  - rewrite IH. split.
    + intros [<- | [Hlt Hnth]]; simpl.
      * split; [lia|]. now replace (index + 1 - index - 1) with 0 by lia.
      * split; [lia|].
        replace (Z.to_nat (lineNum m - index - 1))
          with (S (Z.to_nat (lineNum m - (index + 1) - 1))) by lia.
        exact Hnth.
    + intros [Hlt Hnth].
      destruct (Z.eq_dec (lineNum m) (index + 1)) as [Heq|Hne].
      * left. rewrite Heq in Hnth.
        replace (index + 1 - index - 1) with 0 in Hnth by lia.
        simpl in Hnth. destruct m; simpl in *. congruence.
      * right. split; [lia|].
        replace (Z.to_nat (lineNum m - index - 1))
          with (S (Z.to_nat (lineNum m - (index + 1) - 1))) in Hnth by lia.
        exact Hnth.
Qed.

Lemma numberLines_NoDup (f : lineMatch -> bool) (lines : list text) :
  forall index, NoDup (map lineNum (filter f (numberLines lines index))).
Proof.
  induction lines as [|l lines IH]; intros index; simpl; [constructor|].
  destruct (f _); simpl; auto. constructor; auto.
  intros Hin. apply in_map_iff in Hin as (m & Hnum & Hin).
  apply filter_In in Hin as [Hin _].
  apply numberLines_above in Hin. lia.
Qed.

(** *** The line test *)

Lemma execScan_spec (ic : bool) (r : pattern) (s : text) :
  forall (n : nat) (i : Z),
    (execScan ic r s n i = None /\
     forall j, i <= j < i + Z.of_nat n -> matchAt ic r s j = None) \/
    (exists a e, execScan ic r s n i = Some (a, e) /\
                 i <= a < i + Z.of_nat n /\ matchAt ic r s a = Some e /\
                 forall j, i <= j < a -> matchAt ic r s j = None).
Proof.
  induction n as [|n IH]; intros i; simpl execScan.
  - left. split; auto. intros j Hj. lia.
  - destruct (matchAt ic r s i) as [e|] eqn:E.
    + right. exists i, e. repeat split; auto; lia.
    + destruct (IH (i + 1)) as [[Hr Hall] | (a & e & Hr & Ha & Hm & Hmin)].
      * left. split; auto. intros j Hj.
        destruct (Z.eq_dec j i) as [->|]; auto. apply Hall. lia.
      * right. exists a, e. repeat split; auto; try lia. intros j Hj.
        destruct (Z.eq_dec j i) as [->|]; auto. apply Hmin. lia.
Qed.

Lemma test_iff (ic : bool) (r : pattern) (s : text) :
  test ic r s = true <->
  exists k, 0 <= k <= len s /\ matchAt ic r s k <> None.
Proof.
  unfold test, exec. pose proof (len_nonneg s) as Hs.
  destruct (Z.ltb_spec (len s) 0); [lia|]. rewrite Z.sub_0_r.
  destruct (execScan_spec ic r s (Z.to_nat (len s + 1)) 0)
    as [[Hr Hall] | (a & e & Hr & Ha & Hm & _)]; rewrite Hr.
  - split; [discriminate|]. intros (k & Hk & Hm). exfalso. apply Hm.
    apply Hall. lia.
  - split; auto. intros _. exists a. split; [lia|]. congruence.
Qed.

Lemma includes_iff (s p : text) :
  includes s p = true <-> exists k, occursAt s p k.
Proof.
  unfold includes. pose proof (indexOf_spec s p 0) as H.
  rewrite clamp_id in H by (pose proof (len_nonneg s); lia).
  destruct H as [[Hr Hnone] | (Hge & Hocc & _)].
  - rewrite Hr. simpl. split; [discriminate|].
    intros (k & Hk). exfalso. apply (Hnone k); auto.
    now apply occursAt_bound in Hk.
  - destruct (Z.eqb_spec (indexOf s p 0) (-1)); [lia|]. simpl.
    split; auto. intros _. now exists (indexOf s p 0).
Qed.

(** A line matches when the term occurs somewhere on it (without
    [wholeWord]), or when [\bterm\b] matches somewhere on it (with
    [wholeWord]); the number of occurrences plays no part. *)
Lemma lineHasMatch_iff (term : text) (cs ww : bool) (l : text) :
  lineHasMatch term cs ww l = true <->
  exists k, 0 <= k <= len l /\
            if ww
            then matchAt (negb cs) (wholeWordPattern (norm cs term)) l k
                 <> None
            else occursAt (norm cs l) (norm cs term) k.
Proof.
  unfold lineHasMatch. fold (norm cs l). fold (norm cs term). destruct ww.
  - apply test_iff.
  - rewrite includes_iff. split; intros (k & Hk).
    + exists k. split; auto. apply occursAt_iff in Hk.
      rewrite len_norm in Hk. tauto.
    + exists k. tauto.
Qed.

(** C5.  [searchInAllFiles] keeps the buffers that have a matching line,
    in the order given, each with its matching lines; a line is listed
    once whatever the number of occurrences on it, a buffer without a
    matching line is left out, and [totalMatches] is the number of
    matching lines.  For the buffers "foo\nbar foo" (id 1) and "baz"
    (id 2) and the pattern "foo" the result is one entry, for buffer 1,
    with lines 1 and 2, and [totalMatches = 2]. *)
Theorem searchInAllFiles_matching_lines
        (ts : list tab) (term : text) (cs ww : bool) :
  let r := searchInAllFiles ts term cs ww in
  fileResults r =
    map (fun t => mkFileResult t (matchingLines term cs ww t))
        (filter (hasMatchingLine term cs ww) ts) /\
  totalMatches r = countMatchingLines term cs ww ts /\
  (forall fr, In fr (fileResults r) ->
              matches fr <> [] /\ NoDup (map lineNum (matches fr))) /\
  (forall t m,
      In m (matchingLines term cs ww t) <->
      0 < lineNum m /\
      nth_error (split (content t) newline) (Z.to_nat (lineNum m - 1))
      = Some (line m) /\
      exists k, 0 <= k <= len (line m) /\
                if ww
                then matchAt (negb cs) (wholeWordPattern (norm cs term))
                             (line m) k <> None
                else occursAt (norm cs (line m)) (norm cs term) k) /\
  (let b1 := mkTab 1 (lit "one") (lit "foo" ++ newline ++ lit "bar foo")
                   false in
   let b2 := mkTab 2 (lit "two") (lit "baz") false in
   searchInAllFiles [b1; b2] (lit "foo") cs ww =
   mkSearchResult 2 [mkFileResult b1 [mkLineMatch 1 (lit "foo");
                                      mkLineMatch 2 (lit "bar foo")]]).
Proof.
  intros r. unfold r, searchInAllFiles. rewrite searchInAllFiles_fold.
  simpl totalMatches. simpl fileResults.
  split; [reflexivity|]. split; [reflexivity|]. split; [|split].
  - intros fr Hin. apply in_map_iff in Hin as (t & <- & Hin).
    apply filter_In in Hin as [_ Hhas]. simpl. split.
    + unfold hasMatchingLine in Hhas.
      destruct (matchingLines term cs ww t); [discriminate|congruence].
    + apply numberLines_NoDup.
  - intros t m. unfold matchingLines.
    rewrite filter_In, numberLines_nth, lineHasMatch_iff.
    replace (lineNum m - 0 - 1) with (lineNum m - 1) by lia. tauto.
  - destruct cs, ww; reflexivity.
Qed.

(* ------------------------------------------------------------------ *)
(** ** Walking through the matches with [findNext] *)

(** *** The list of all matches *)









(** *** One step of [findNext] *)


(** Case analysis along the branches of [findNext]. *)
Ltac findNext_branches a :=
  unfold findNext;
  destruct (isEmpty _); auto;
  destruct (findInText _ _ _ (selectionStart a + 1) _ _) as [?index|]; auto;
  destruct (negb (_ =? -1)); auto;
  destruct (findInText _ _ _ 0 _ _) as [?firstIndex|]; auto;
  destruct (negb (_ =? -1)); auto.

Lemma findNext_value (d : dialog) (a : edita) :
  value (findNext d a) = value a.
Proof. findNext_branches a. Qed.

Lemma findNext_tabs (d : dialog) (a : edita) : tabs (findNext d a) = tabs a.
Proof. findNext_branches a. Qed.



(** *** The walk *)






(* ------------------------------------------------------------------ *)
(** ** Counting and replacing *)

Lemma matchAt_escaped_plain (s p : text) (e : Z) :
  0 <= e ->
  matchAt false (escaped p) s e =
  if startsWith p (skipn (Z.to_nat e) s) then Some (e + len p) else None.
Proof.
  intros He. pose proof (matchAt_escaped true s [] p e He) as H.
  simpl in H. now rewrite app_nil_r in H.
Qed.

(** On an escaped term [exec] finds what [indexOf] finds. *)
Lemma exec_escaped (s p : text) (pos : Z) :
  0 <= pos <= len s ->
  exec false (escaped p) s pos =
  if indexOf s p pos =? -1 then None
  else Some (indexOf s p pos, indexOf s p pos + len p).
Proof.
  intros Hpos. unfold exec.
  destruct (Z.ltb_spec (len s) pos); [lia|].
  pose proof (indexOf_spec s p pos) as Hidx.
  rewrite clamp_id in Hidx by lia.
  assert (Hm : forall j, 0 <= j <= len s ->
                 (matchAt false (escaped p) s j = None <-> ~ occursAt s p j)).
  { intros j Hj. rewrite matchAt_escaped_plain, occursAt_iff by lia.
    destruct (startsWith p (skipn (Z.to_nat j) s)); split.
    - discriminate.
    - intros Hn. exfalso. apply Hn. auto.
    - intros _ [_ Hx]. discriminate.
    - reflexivity. }
  destruct (execScan_spec false (escaped p) s (Z.to_nat (len s - pos + 1)) pos)
    as [[Hr Hall] | (a & e & Hr & Ha & Hma & Hmin)]; rewrite Hr.
  - destruct Hidx as [[-> _] | (Hge & Hocc & _)]; [reflexivity|].
    exfalso. pose proof (occursAt_bound _ _ _ Hocc) as Hb.
    pose proof (len_nonneg p).
    apply (Hm (indexOf s p pos)); [lia | apply Hall; lia | exact Hocc].
  - assert (Hocc : occursAt s p a).
    { destruct (Hm a) as [_ Hx]; [lia|].
      apply occursAt_iff. split; [lia|].
      rewrite matchAt_escaped_plain in Hma by lia.
      now destruct (startsWith p (skipn (Z.to_nat a) s)). }
    assert (He : e = a + len p).
    { rewrite matchAt_escaped_plain in Hma by lia.
      destruct (startsWith p (skipn (Z.to_nat a) s)); congruence. }
    destruct Hidx as [[_ Hnone] | (Hge & Hocc' & Hmin')].
    + exfalso. apply (Hnone a); [lia|exact Hocc].
    + assert (indexOf s p pos = a).
      { destruct (Z.lt_trichotomy (indexOf s p pos) a) as [Hlt | [Heq | Hgt]];
          auto; exfalso.
        - pose proof (occursAt_bound _ _ _ Hocc').
          apply (Hm (indexOf s p pos)); [lia | apply Hmin; lia | exact Hocc'].
        - apply (Hmin' a); [lia|exact Hocc]. }
      destruct (Z.eqb_spec (indexOf s p pos) (-1)); [lia|]. congruence.
Qed.

(** The two counters run in step on a non-empty term: the loop of
    [countInText] and the matches of the escaped term by [String.match]
    count the same left-to-right occurrences that do not overlap. *)
Lemma countLoop_matchLoop (s p : text) :
  p <> [] ->
  forall (n : nat) (pos count : Z),
    0 <= pos <= len s -> len s - pos < Z.of_nat n ->
    countLoop n s p pos count =
    Some (count + Z.of_nat (length (matchLoop false (escaped p) s n pos))).
Proof.
  intros Hp. pose proof (len_nonempty p Hp) as Hn.
  induction n as [|n IH]; intros pos count Hpos Hfuel; [lia|].
  simpl countLoop. simpl matchLoop. rewrite exec_escaped by assumption.
  destruct (Z.eqb_spec (indexOf s p pos) (-1)) as [Hnone|Hfound].
  - simpl. now rewrite Z.add_0_r.
  - destruct (indexOf_found s p pos Hfound) as [Hge Hocc].
    rewrite clamp_id in Hge by assumption.
    apply occursAt_bound in Hocc.
    destruct (Z.eqb_spec (indexOf s p pos + len p) (indexOf s p pos)); [lia|].
    rewrite IH by lia. simpl length. f_equal. lia.
Qed.

(** With [caseSensitive] set and [wholeWord] clear the count shown by
    [replaceAll] is the count of [countInText]. *)
Lemma replaceAll_count_caseSensitive_substring (content term : text) :
  term <> [] ->
  countInText (callBound content) content term true false =
  Some (Z.of_nat (length (matchAll false (escaped term) content))).
Proof.
  intros Hterm. unfold countInText, matchAll, callBound.
  rewrite (countLoop_matchLoop content term Hterm);
    [reflexivity | pose proof (len_nonneg content); lia | unfold len; lia].
Qed.

(** Property P3: "aa" is counted twice in "aaaa". *)
Lemma countInText_non_overlapping :
  countInText (callBound (lit "aaaa")) (lit "aaaa") (lit "aa") true false
  = Some 2.
Proof. reflexivity. Qed.

(** C1 (the code at a failing input).  [replaceAll] reads neither
    [caseSensitive] nor [wholeWord]: with "foo" searched without case in
    "Foo foo", [countInText] counts 2 and [replaceAll] reports 1; with
    "cat" searched as a whole word in "catalog cat", [countInText] counts
    1 and [replaceAll] reports 2. *)
Theorem replaceAll_count_differs_from_countInText :
  (let d := mkDialog (lit "foo") (lit "x") false false true in
   let a := mkEdita (lit "Foo foo") 0 0
                    [mkTab 0 (lit "Untitled") (lit "Foo foo") false]
                    0 Blank [] in
   countInText (callBound (value a)) (value a) (findInput d)
               (caseSensitive d) (wholeWord d) = Some 2 /\
   findResults (replaceAll d a) = ReplacedOccurrences 1) /\
  (let d := mkDialog (lit "cat") (lit "dog") true true true in
   let a := mkEdita (lit "catalog cat") 0 0
                    [mkTab 0 (lit "Untitled") (lit "catalog cat") false]
                    0 Blank [] in
   countInText (callBound (value a)) (value a) (findInput d)
               (caseSensitive d) (wholeWord d) = Some 1 /\
   findResults (replaceAll d a) = ReplacedOccurrences 2).
Proof. repeat split. Qed.

(** C2 (the code at a failing input).  With [wholeWord] set and the
    pattern "cat", [replaceAll] turns "catalog cat" into "dogalog dog":
    the occurrence inside "catalog" is replaced too, although the only
    whole-word match is the one at offset 8. *)
Theorem replaceAll_replaces_inside_words :
  let d := mkDialog (lit "cat") (lit "dog") true true true in
  let a := mkEdita (lit "catalog cat") 0 0
                   [mkTab 0 (lit "Untitled") (lit "catalog cat") false]
                   0 Blank [] in
  occurrences (value a) (findInput d) (caseSensitive d) (wholeWord d) = [8] /\
  value (replaceAll d a) = lit "dogalog dog" /\
  tabs (replaceAll d a) =
    [mkTab 0 (lit "Untitled") (lit "dogalog dog") true].
Proof. repeat split. Qed.

(** *** [replaceOne] *)

Lemma findNext_errors (d : dialog) (a : edita) :
  findInput d <> [] -> errors (findNext d a) = errors a.
Proof.
  intros Hterm. unfold findNext. destruct (isEmpty (findInput d)); auto.
  destruct (findInText_callBound (value a) (findInput d)
              (selectionStart a + 1) (caseSensitive d) (wholeWord d) Hterm)
    as (r & -> & _).
  destruct (negb (r =? -1)); auto.
  destruct (findInText_callBound (value a) (findInput d) 0
              (caseSensitive d) (wholeWord d) Hterm) as (r0 & -> & _).
  destruct (negb (r0 =? -1)); auto.
Qed.

(** When the selected text is not exactly the search term, [replaceOne]
    is [findNext]: the content and the tabs stay as they are and no error
    is logged. *)
Lemma replaceOne_selection_mismatch (d : dialog) (a : edita) :
  findInput d <> [] ->
  substring (value a) (selectionStart a) (selectionEnd a) <> findInput d ->
  replaceOne d a = findNext d a /\
  value (replaceOne d a) = value a /\
  tabs (replaceOne d a) = tabs a /\
  errors (replaceOne d a) = errors a.
Proof.
  intros Hterm Hsel.
  assert (Heq : replaceOne d a = findNext d a).
  { unfold replaceOne. destruct (isEmpty (findInput d)) eqn:E.
    - unfold findNext. now rewrite E.
    - unfold textEqb. destruct (list_eq_dec _ _ _); [contradiction|].
      reflexivity. }
  rewrite Heq, findNext_value, findNext_tabs, findNext_errors; auto.
Qed.

(** C6 (the code at a failing input).  With [caseSensitive] clear,
    [findNext] selects "Foo" as the match of "foo"; [replaceOne] compares
    the selection with the pattern code unit by code unit, finds them
    different and leaves "Foo" in place. *)
Theorem replaceOne_ignores_case_rule :
  let d := mkDialog (lit "foo") (lit "x") false false true in
  let a0 := mkEdita (lit "Foo") 0 0
                    [mkTab 0 (lit "Untitled") (lit "Foo") false] 0 Blank [] in
  let a := findNext d a0 in
  selectionStart a = 0 /\ selectionEnd a = 3 /\
  norm (caseSensitive d)
       (substring (value a) (selectionStart a) (selectionEnd a)) =
  norm (caseSensitive d) (findInput d) /\
  value (replaceOne d a) = lit "Foo" /\
  tabs (replaceOne d a) = tabs a0.
Proof. repeat split. Qed.

(* ------------------------------------------------------------------ *)
(** ** Backward search *)

(** C8 (the code at a failing input).  In "---x" the pattern "--" occurs
    at offsets 0 and 1.  With [wholeWord] the occurrence at 1 is rejected
    (it is followed by "x"), the one at 0 passes the test and lies in the
    window, and the forward search returns it; the backward search retries
    in the window that ends at offset 1, where "--" no longer fits, and
    returns [-1]. *)
Theorem findInTextReverse_misses_overlapping_match :
  let content := lit "---x" in
  let term := lit "--" in
  occurrences content term true true = [0] /\
  0 + len term <= clamp 4 (len content) /\
  findInText (callBound content) content term 0 true true = Some 0 /\
  findInTextReverse (callBound content) content term 4 true true = Some (-1).
Proof. repeat split. discriminate. Qed.

(** [findPrevious] searches before [selectionStart - 1], so a match that
    ends right where the selection starts is passed over: in "abab" with
    the second "ab" selected, the first "ab" is not found and the search
    wraps to the selected match itself. *)
Lemma findPrevious_passes_over_adjacent_match :
  let d := mkDialog (lit "ab") (lit "") true false true in
  let a := mkEdita (lit "abab") 2 4 [] 0 Blank [] in
  selectionStart (findPrevious d a) = 2 /\
  findResults (findPrevious d a) = WrappedToLine 1.
Proof. split; reflexivity. Qed.

(* ------------------------------------------------------------------ *)
(** ** [split] and [join] *)

Lemma splitScan_nonempty (sep : text) :
  forall (s : text) (k : nat) (cur : text), splitScan sep s k cur <> [].
Proof.
  induction s as [|c s IH]; intros k cur; simpl; [discriminate|].
  destruct k; auto. destruct (startsWith sep (c :: s)); [discriminate|auto].
Qed.

Lemma join_cons (p : text) (rest : list text) (sep : text) :
  rest <> [] -> join (p :: rest) sep = p ++ sep ++ join rest sep.
Proof. destruct rest; [congruence | reflexivity]. Qed.

Lemma splitScan_skip (sep : text) :
  forall (k : nat) (s cur : text),
    splitScan sep s k cur = splitScan sep (skipn k s) 0 cur.
Proof.
  induction k as [|k IH]; intros s cur; [reflexivity|].
  destruct s as [|c s]; [reflexivity|]. simpl. apply IH.
Qed.

Lemma startsWith_cons_skip (sep s : text) :
  sep <> [] -> startsWith sep s = true ->
  exists c s', s = c :: s' /\
               skipn (length sep - 1) s' = skipn (length sep) s.
Proof.
  intros Hsep Hst. destruct sep as [|a sep]; [congruence|].
  destruct s as [|c s']; [discriminate|]. exists c, s'. split; auto.
  simpl. now rewrite Nat.sub_0_r.
Qed.

(** The pieces put together again with the separator give the string. *)
Lemma join_splitScan (sep : text) :
  sep <> [] ->
  forall (s : text) (k : nat) (cur : text),
    join (splitScan sep s k cur) sep = rev cur ++ skipn k s.
Proof.
  intros Hsep. induction s as [|c s IH]; intros k cur.
  - simpl. now rewrite skipn_nil, app_nil_r.
  - destruct k as [|k]; simpl; [|apply IH].
    destruct (startsWith sep (c :: s)) eqn:Hst.
    + rewrite join_cons by apply splitScan_nonempty. rewrite IH. simpl.
      apply startsWith_inv in Hst as [post Hpost].
      destruct sep as [|a sep]; [congruence|]. simpl in Hpost.
      injection Hpost as -> ->. simpl. rewrite Nat.sub_0_r.
      rewrite skipn_app, skipn_all, Nat.sub_diag. reflexivity.
    + rewrite IH. simpl. now rewrite <- app_assoc.
Qed.

Lemma split_splitScan (s sep : text) :
  sep <> [] -> split s sep = splitScan sep s 0 [].
Proof. destruct sep; [congruence | reflexivity]. Qed.

Lemma join_split (s sep : text) : sep <> [] -> join (split s sep) sep = s.
Proof.
  intros Hsep. unfold split. destruct sep as [|a sep]; [congruence|].
  now rewrite join_splitScan.
Qed.

Lemma splitScan_no_match (sep : text) :
  forall (s cur : text),
    (forall j, (j <= length s)%nat -> startsWith sep (skipn j s) = false) ->
    splitScan sep s 0 cur = [rev cur ++ s].
Proof.
  induction s as [|c s IH]; intros cur Hnone; simpl.
  - now rewrite app_nil_r.
  - pose proof (Hnone O (Nat.le_0_l _)) as H0. simpl in H0. rewrite H0, IH.
    + simpl. now rewrite <- app_assoc.
    + intros j Hj. apply (Hnone (S j)). simpl. lia.
Qed.

Lemma splitScan_first_match (sep : text) :
  sep <> [] ->
  forall (j : nat) (s cur : text),
    (forall i, (i < j)%nat -> startsWith sep (skipn i s) = false) ->
    startsWith sep (skipn j s) = true ->
    splitScan sep s 0 cur =
    (rev cur ++ firstn j s) :: splitScan sep (skipn (j + length sep) s) 0 [].
Proof.
  intros Hsep. induction j as [|j IH]; intros s cur Hbefore Hat.
  - simpl in Hat.
    destruct (startsWith_cons_skip sep s Hsep Hat) as (c & s' & -> & Hskip).
    simpl splitScan. rewrite Hat, splitScan_skip, Hskip.
    simpl. now rewrite app_nil_r.
  - destruct s as [|c s].
    + simpl in Hat. destruct sep; [congruence|discriminate].
    + simpl splitScan.
      pose proof (Hbefore O (Nat.lt_0_succ _)) as H0. simpl in H0. rewrite H0.
      rewrite (IH s (c :: cur)).
      * simpl. now rewrite <- app_assoc.
      * intros i Hi. apply (Hbefore (S i)). lia.
      * exact Hat.
Qed.

(** [split] cuts at the matches that [String.match] counts. *)
Lemma splitScan_matchLoop (s p : text) :
  p <> [] ->
  forall (n : nat) (pos : Z) (cur : text),
    0 <= pos <= len s -> len s - pos < Z.of_nat n ->
    length (splitScan p (skipn (Z.to_nat pos) s) 0 cur) =
    S (length (matchLoop false (escaped p) s n pos)).
Proof.
  intros Hp. pose proof (len_nonempty p Hp) as Hn.
  induction n as [|n IH]; intros pos cur Hpos Hfuel; [lia|].
  simpl matchLoop. rewrite exec_escaped by assumption.
  pose proof (indexOf_spec s p pos) as Hidx.
  rewrite clamp_id in Hidx by assumption.
  destruct Hidx as [[Hr Hnone] | (Hge & Hocc & Hmin)].
  - rewrite Hr. simpl. rewrite splitScan_no_match; [reflexivity|].
    intros j Hj. rewrite length_skipn in Hj. rewrite skipn_skipn.
    destruct (startsWith p (skipn (j + Z.to_nat pos) s)) eqn:E; auto.
    exfalso. apply (Hnone (Z.of_nat (j + Z.to_nat pos))); [lia|].
    apply occursAt_iff. rewrite Nat2Z.id. unfold len in *. split; [lia|auto].
  - set (i := indexOf s p pos) in *.
    pose proof (occursAt_bound _ _ _ Hocc) as [H0 Hend].
    apply occursAt_iff in Hocc as [_ Hst].
    destruct (Z.eqb_spec i (-1)); [lia|].
    destruct (Z.eqb_spec (i + len p) i); [lia|]. simpl length.
    rewrite (splitScan_first_match p Hp (Z.to_nat (i - pos))).
    + simpl length. f_equal. rewrite skipn_skipn.
      replace (Z.to_nat (i - pos) + length p + Z.to_nat pos)%nat
        with (Z.to_nat (i + len p)) by (unfold len; lia).
      apply IH; lia.
    + intros k Hk. rewrite skipn_skipn.
      destruct (startsWith p (skipn (k + Z.to_nat pos) s)) eqn:E; auto.
      exfalso. apply (Hmin (Z.of_nat (k + Z.to_nat pos))); [lia|].
      apply occursAt_iff. rewrite Nat2Z.id. unfold len in *. split; [lia|auto].
    + rewrite skipn_skipn.
      replace (Z.to_nat (i - pos) + Z.to_nat pos)%nat with (Z.to_nat i) by lia.
      exact Hst.
Qed.

Lemma split_count (s p : text) :
  p <> [] ->
  length (split s p) = S (length (matchAll false (escaped p) s)).
Proof.
  intros Hp. unfold split, matchAll. destruct p as [|a p]; [congruence|].
  apply (splitScan_matchLoop s (a :: p) Hp (S (length s)) 0 []).
  - pose proof (len_nonneg s). lia.
  - unfold len. lia.
Qed.

Lemma len_join (pieces : list text) (sep : text) :
  pieces <> [] ->
  len (join pieces sep) =
  totalLen pieces + (Z.of_nat (length pieces) - 1) * len sep.
Proof.
  induction pieces as [|p rest IH]; intros Hne; [congruence|].
  destruct rest as [|q rest].
  - simpl. lia.
  - rewrite join_cons by discriminate. rewrite !len_app, IH by discriminate.
    simpl totalLen. simpl length. lia.
Qed.

(* ------------------------------------------------------------------ *)
(** ** What [replaceAll] does to the content *)

Lemma value_setValue (v : text) (a : edita) : value (setValue v a) = v.
Proof.
  unfold setValue, textEqb.
  destruct (list_eq_dec ascii_dec v (value a)); auto.
Qed.

Lemma setValue_tabs (v : text) (a : edita) : tabs (setValue v a) = tabs a.
Proof. unfold setValue. now destruct (textEqb v (value a)). Qed.

Lemma setValue_activeTabId (v : text) (a : edita) :
  activeTabId (setValue v a) = activeTabId a.
Proof. unfold setValue. now destruct (textEqb v (value a)). Qed.

Lemma matchAll_nil_iff (s p : text) :
  p <> [] ->
  matchAll false (escaped p) s = [] <-> forall k, ~ occursAt s p k.
Proof.
  intros Hp. unfold matchAll. simpl matchLoop.
  rewrite exec_escaped by (pose proof (len_nonneg s); lia).
  pose proof (indexOf_spec s p 0) as Hidx.
  rewrite clamp_id in Hidx by (pose proof (len_nonneg s); lia).
  destruct Hidx as [[Hr Hnone] | (Hge & Hocc & _)].
  - rewrite Hr. simpl. split; auto. intros _ k Hk.
    apply (Hnone k); auto. now apply occursAt_bound in Hk.
  - destruct (Z.eqb_spec (indexOf s p 0) (-1)); [lia|].
    split; [discriminate|]. intros Hnone. now apply Hnone in Hocc.
Qed.

(** X1.  [replaceAll] reports the replacements it makes: the content is
    cut at [count] occurrences of the term into [count + 1] pieces, the
    new content is these pieces joined by the replacement, the old content
    is the same pieces joined by the term, and so the length changes by
    [count] times the difference of the two lengths. *)
Theorem replaceAll_reports_its_replacements (d : dialog) (a : edita) :
  findInput d <> [] ->
  let pieces := split (value a) (findInput d) in
  let count :=
    Z.of_nat (length (matchAll false (escaped (findInput d)) (value a))) in
  findResults (replaceAll d a) = ReplacedOccurrences count /\
  Z.of_nat (length pieces) = count + 1 /\
  value (replaceAll d a) = join pieces (replaceInput d) /\
  value a = join pieces (findInput d) /\
  len (value (replaceAll d a)) =
  len (value a) + count * (len (replaceInput d) - len (findInput d)).
Proof.
  intros Hterm pieces count.
  assert (Hne : isEmpty (findInput d) = false)
    by (destruct (findInput d); [congruence | reflexivity]).
  assert (Hval : value (replaceAll d a) = join pieces (replaceInput d)).
  { unfold replaceAll. rewrite Hne. simpl. apply value_setValue. }
  assert (Hcount : Z.of_nat (length pieces) = count + 1).
  { unfold pieces, count. rewrite split_count by assumption. lia. }
  assert (Hold : value a = join pieces (findInput d)).
  { unfold pieces. now rewrite join_split. }
  assert (Hpieces : pieces <> []).
  { intros E. rewrite E in Hcount. simpl in Hcount. unfold count in *. lia. }
  split; [|split; [|split; [|split]]]; auto.
  - unfold replaceAll. now rewrite Hne.
  - rewrite Hval.
    replace (len (value a)) with (len (join pieces (findInput d)))
      by (now rewrite <- Hold).
    rewrite !len_join by assumption. rewrite Hcount. ring.
Qed.

Lemma replaceAll_reports_its_replacements_witness :
  let d := mkDialog (lit "ab") (lit "xyz") false false true in
  let a := mkEdita (lit "abcabab") 0 0 [] 0 Blank [] in
  findInput d <> [] /\
  len (value (replaceAll d a)) = len (value a) + 3 * (3 - 2).
Proof.
  intros d a. assert (H : findInput d <> []) by discriminate.
  split; [exact H|].
  exact (proj2 (proj2 (proj2 (proj2
           (replaceAll_reports_its_replacements d a H))))).
Defined.

(** X2.  [replaceAll] reports zero replacements exactly when the term
    does not occur in the content; the content and the selection then stay
    as they are, but [handleInput] still runs, so the active tab is marked
    modified. *)
Theorem replaceAll_without_occurrence (d : dialog) (a : edita) :
  findInput d <> [] ->
  (findResults (replaceAll d a) = ReplacedOccurrences 0 <->
   forall k, ~ occursAt (value a) (findInput d) k) /\
  ((forall k, ~ occursAt (value a) (findInput d) k) ->
   value (replaceAll d a) = value a /\
   selectionStart (replaceAll d a) = selectionStart a /\
   selectionEnd (replaceAll d a) = selectionEnd a /\
   tabs (replaceAll d a) =
     storeContent (activeTabId a) (value a) (tabs a)).
Proof.
  intros Hterm.
  assert (Hne : isEmpty (findInput d) = false)
    by (destruct (findInput d); [congruence | reflexivity]).
  split.
  - unfold replaceAll. rewrite Hne. simpl findResults.
    rewrite <- (matchAll_nil_iff _ _ Hterm).
    destruct (matchAll false (escaped (findInput d)) (value a)); split;
      try reflexivity; discriminate.
  - intros Hnone.
    assert (Hsplit : split (value a) (findInput d) = [value a]).
    { rewrite split_splitScan by assumption.
      rewrite splitScan_no_match; [reflexivity|].
      intros j Hj. destruct (startsWith (findInput d) (skipn j (value a)))
        eqn:Hst; auto.
      exfalso. apply (Hnone (Z.of_nat j)). apply occursAt_iff.
      rewrite Nat2Z.id. unfold len. split; [lia|auto]. }
    unfold replaceAll. rewrite Hne, Hsplit. simpl join.
    unfold setValue, textEqb.
    destruct (list_eq_dec ascii_dec (value a) (value a)); [|congruence].
    repeat split.
Qed.

Lemma replaceAll_without_occurrence_witness :
  let d := mkDialog (lit "zz") (lit "x") false false true in
  let a := mkEdita (lit "abc") 1 2 [mkTab 0 (lit "Untitled") (lit "abc") false]
                   0 Blank [] in
  findInput d <> [] /\
  (findResults (replaceAll d a) = ReplacedOccurrences 0 <->
   forall k, ~ occursAt (value a) (findInput d) k).
Proof.
  intros d a. assert (H : findInput d <> []) by discriminate.
  split; [exact H|].
  exact (proj1 (replaceAll_without_occurrence d a H)).
Defined.

(* ------------------------------------------------------------------ *)
(** ** What [findNext] selects and reports *)

Lemma substring_range (s : text) (a b : Z) :
  0 <= a <= b -> b <= len s ->
  substring s a b = firstn (Z.to_nat (b - a)) (skipn (Z.to_nat a) s).
Proof.
  intros Hab Hb. unfold substring.
  rewrite !clamp_id by lia. now rewrite Z.min_l, Z.max_r by lia.
Qed.



(** The three ways [findNext] can end for a non-empty term. *)
Lemma findNext_cases (d : dialog) (a : edita) :
  findInput d <> [] ->
  let Q := qualifies (value a) (findInput d) (caseSensitive d) (wholeWord d) in
  exists r,
    leastFrom Q (clamp (selectionStart a + 1) (len (value a))) r /\
    ((r <> -1 /\
      findNext d a =
      setFindResults (FoundAtPosition r)
        (setSelectionRange r (r + len (findInput d)) a)) \/
     (r = -1 /\
      exists r0,
        leastFrom Q 0 r0 /\
        ((r0 <> -1 /\
          findNext d a =
          setFindResults WrappedToBeginning
            (setSelectionRange r0 (r0 + len (findInput d)) a)) \/
         (r0 = -1 /\ findNext d a = setFindResults NoMatchesFound a)))).
Proof.
  intros Hterm Q.
  assert (Hne : isEmpty (findInput d) = false)
    by (destruct (findInput d); [congruence | reflexivity]).
  unfold findNext. rewrite Hne. cbv zeta.
  destruct (findInText_callBound (value a) (findInput d)
              (selectionStart a + 1) (caseSensitive d) (wholeWord d) Hterm)
    as (r & -> & Hleast).
  exists r. split; auto.
  destruct (Z.eqb_spec r (-1)) as [->|Hr]; simpl negb; cbv iota.
  - right. split; auto.
    destruct (findInText_callBound (value a) (findInput d) 0
                (caseSensitive d) (wholeWord d) Hterm)
      as (r0 & -> & Hleast0).
    rewrite clamp_id in Hleast0 by (pose proof (len_nonneg (value a)); lia).
    exists r0. split; auto.
    destruct (Z.eqb_spec r0 (-1)) as [->|Hr0]; simpl; auto.
  - left. auto.
Qed.

Lemma setSelectionRange_match (r n : Z) (a : edita) :
  0 <= r -> 0 <= n -> r + n <= len (value a) ->
  selectionStart (setSelectionRange r (r + n) a) = r /\
  selectionEnd (setSelectionRange r (r + n) a) = r + n.
Proof. intros. unfold setSelectionRange, clamp. simpl. lia. Qed.



(* ------------------------------------------------------------------ *)
(** ** The count without [wholeWord] *)




(* ------------------------------------------------------------------ *)
(** ** A successful [replaceOne] *)

Lemma findNext_status (d : dialog) (a : edita) :
  findInput d <> [] ->
  (exists r, findResults (findNext d a) = FoundAtPosition r) \/
  findResults (findNext d a) = WrappedToBeginning \/
  findResults (findNext d a) = NoMatchesFound.
Proof.
  intros Hterm.
  destruct (findNext_cases d a Hterm)
    as (r & _ & [[_ ->] | (_ & r0 & _ & [[_ ->] | [_ ->]])]); simpl; eauto.
Qed.

(** X5.  When the selected text is exactly the (non-empty) search term,
    [replaceOne] puts the replacement in its place and leaves the rest of
    the content alone, stores the new content in the active tab, and then
    runs [findNext] with the selection start still at the start of the
    replacement, so the next search begins one code unit into the
    replacement.  The status "Replaced 1 occurrence" does not stay: the
    status of [findNext] is written over it. *)
Theorem replaceOne_replaces_selection (d : dialog) (a : edita) :
  findInput d <> [] ->
  0 <= selectionStart a <= selectionEnd a ->
  selectionEnd a <= len (value a) ->
  substring (value a) (selectionStart a) (selectionEnd a) = findInput d ->
  let replaced :=
    firstn (Z.to_nat (selectionStart a)) (value a) ++ replaceInput d ++
    skipn (Z.to_nat (selectionEnd a)) (value a) in
  exists a1,
    replaceOne d a = findNext d a1 /\
    value a1 = replaced /\
    selectionStart a1 = selectionStart a /\
    selectionEnd a1 = selectionStart a + len (replaceInput d) /\
    value (replaceOne d a) = replaced /\
    tabs (replaceOne d a) = storeContent (activeTabId a) replaced (tabs a) /\
    findResults (replaceOne d a) <> ReplacedOne.
Proof.
  intros Hterm Hsel Hend Hmatch replaced.
  assert (Hne : isEmpty (findInput d) = false)
    by (destruct (findInput d); [congruence | reflexivity]).
  pose proof (len_nonneg (replaceInput d)) as Hr.
  assert (Hsub : substring (value a) 0 (selectionStart a) ++ replaceInput d ++
                 substringFrom (value a) (selectionEnd a) = replaced).
  { unfold replaced, substringFrom.
    rewrite substring_0, !clamp_id by lia. reflexivity. }
  assert (Hlen : selectionStart a + len (replaceInput d) <= len replaced).
  { unfold replaced. rewrite !len_app.
    pose proof (len_nonneg (skipn (Z.to_nat (selectionEnd a)) (value a))).
    unfold len in *. rewrite length_firstn. lia. }
  set (a1 := setFindResults ReplacedOne
               (handleInput
                  (setSelectionRange (selectionStart a)
                     (selectionStart a + len (replaceInput d))
                     (setValue replaced a)))).
  assert (Hv1 : value a1 = replaced) by (simpl; apply value_setValue).
  assert (Heq : replaceOne d a = findNext d a1).
  { unfold replaceOne. rewrite Hne. cbv zeta. rewrite Hmatch.
    unfold textEqb at 1.
    destruct (list_eq_dec ascii_dec (findInput d) (findInput d));
      [|congruence].
    rewrite Hsub. reflexivity. }
  destruct (setSelectionRange_match (selectionStart a) (len (replaceInput d))
              (setValue replaced a)) as [Hs He];
    try lia; [now rewrite value_setValue|].
  exists a1. split; [exact Heq|]. split; [exact Hv1|].
  split; [exact Hs|]. split; [exact He|].
  rewrite Heq, findNext_value, findNext_tabs.
  split; [exact Hv1|]. split.
  - simpl. now rewrite value_setValue, setValue_tabs, setValue_activeTabId.
  - destruct (findNext_status d a1 Hterm) as [(r & ->) | [-> | ->]];
      discriminate.
Qed.

Lemma replaceOne_replaces_selection_witness :
  let d := mkDialog (lit "b") (lit "xy") true false true in
  let a := mkEdita (lit "abc") 1 2 [mkTab 0 (lit "Untitled") (lit "abc") false]
                   0 Blank [] in
  findInput d <> [] /\
  exists a1, replaceOne d a = findNext d a1 /\
             value a1 = lit "axyc" /\ selectionStart a1 = 1.
Proof.
  intros d a. assert (H : findInput d <> []) by discriminate.
  split; [exact H|].
  destruct (replaceOne_replaces_selection d a H) as (a1 & H1 & H2 & H3 & _);
    [simpl; lia | simpl; unfold len; simpl; lia | reflexivity |].
  exists a1. auto.
Defined.

(* ------------------------------------------------------------------ *)
(** ** What [findPrevious] selects and reports *)






(* ------------------------------------------------------------------ *)
(** ** Lines *)

Lemma splitScan_char_step (c x : ascii) (s cur : text) :
  splitScan [c] (x :: s) 0 cur =
  if Ascii.eqb c x then rev cur :: splitScan [c] s 0 []
  else splitScan [c] s 0 (x :: cur).
Proof. simpl. now rewrite andb_true_r. Qed.

Lemma splitScan_char_app (c : ascii) (p : text) :
  ~ In c p ->
  forall (s cur : text),
    splitScan [c] (p ++ s) 0 cur = splitScan [c] s 0 (rev p ++ cur).
Proof.
  induction p as [|x p IH]; intros Hfree s cur; [reflexivity|].
  simpl List.app. rewrite splitScan_char_step.
  destruct (Ascii.eqb_spec c x) as [->|Hne].
  - exfalso. apply Hfree. now left.
  - rewrite IH by (intros H; apply Hfree; now right).
    simpl. now rewrite <- app_assoc.
Qed.

Lemma split_line_cons (l rest : text) :
  ~ In "010"%char l -> split (l ++ "010"%char :: rest) newline = l :: split rest newline.
Proof.
  intros Hfree. unfold split, newline.
  rewrite splitScan_char_app by assumption.
  rewrite splitScan_char_step, Ascii.eqb_refl, app_nil_r, rev_involutive.
  reflexivity.
Qed.

Lemma split_line_single (l : text) : ~ In "010"%char l -> split l newline = [l].
Proof.
  intros Hfree. unfold split, newline.
  rewrite <- (app_nil_r l) at 1. rewrite splitScan_char_app by assumption.
  simpl. now rewrite app_nil_r, rev_involutive.
Qed.

Lemma splitScan_char_free (c : ascii) :
  forall (s cur : text),
    ~ In c cur -> Forall (fun p => ~ In c p) (splitScan [c] s 0 cur).
Proof.
  induction s as [|x s IH]; intros cur Hcur.
  - simpl. constructor; [|constructor]. now rewrite <- in_rev.
  - rewrite splitScan_char_step. destruct (Ascii.eqb_spec c x) as [->|Hne].
    + constructor; [now rewrite <- in_rev | apply IH; auto].
    + apply IH. intros [H | H]; [congruence | contradiction].
Qed.

Lemma split_lines_free (s : text) :
  Forall (fun l => ~ In "010"%char l) (split s newline).
Proof. apply splitScan_char_free. auto. Qed.

Lemma split_lines_nonempty (s : text) : split s newline <> [].
Proof. apply splitScan_nonempty. Qed.

Lemma join_lines (s : text) : join (split s newline) newline = s.
Proof. apply join_split. discriminate. Qed.

Lemma splitScan_char_length (c : ascii) :
  forall (s cur : text),
    length (splitScan [c] s 0 cur) = S (count_occ ascii_dec s c).
Proof.
  induction s as [|x s IH]; intros cur; [reflexivity|].
  rewrite splitScan_char_step. simpl count_occ.
  destruct (Ascii.eqb_spec c x) as [->|Hne].
  - destruct (ascii_dec x x); [|congruence]. simpl. now rewrite IH.
  - destruct (ascii_dec x c); [congruence|]. apply IH.
Qed.

(** There is one line more than there are newline characters. *)
Lemma length_split_lines (s : text) :
  length (split s newline) = S (newlines s).
Proof. apply splitScan_char_length. Qed.

Lemma firstn_In (x : ascii) (n : nat) (l : text) :
  In x (firstn n l) -> In x l.
Proof.
  intros H. rewrite <- (firstn_skipn n l). apply in_or_app. now left.
Qed.

(** The text before the cursor, cut into lines, against the loop of the
    status bar. *)
Lemma lineColLoop_spec :
  forall (L : list text) (i pos cursor : Z),
    Forall (fun l => ~ In "010"%char l) L -> L <> [] ->
    pos <= cursor <= pos + len (join L newline) ->
    let before := firstn (Z.to_nat (cursor - pos)) (join L newline) in
    lineColLoop L i pos cursor =
    (i + Z.of_nat (length (split before newline)),
     1 + len (last (split before newline) [])).
Proof.
  induction L as [|l rest IH]; intros i pos cursor Hfree Hne Hcur before;
    [congruence|].
  apply Forall_cons_iff in Hfree as [Hl Hrest].
  simpl lineColLoop. destruct (Z.geb_spec (pos + len l) cursor) as [Hin|Hout].
  - assert (Hb : before = firstn (Z.to_nat (cursor - pos)) l).
    { unfold before. destruct rest as [|q rest]; [reflexivity|].
      rewrite join_cons by discriminate.
      rewrite firstn_app. unfold len in *.
      replace (Z.to_nat (cursor - pos) - length l)%nat with O by lia.
      simpl. now rewrite app_nil_r. }
    rewrite Hb, split_line_single.
    + cbn [length last]. unfold len in *. rewrite length_firstn.
      f_equal; lia.
    + intros H. apply Hl. eapply firstn_In; eauto.
  - destruct rest as [|q rest].
    { simpl in Hcur. lia. }
    assert (Hj : join (l :: q :: rest) newline =
                 l ++ "010"%char :: join (q :: rest) newline)
      by (now rewrite join_cons by discriminate).
    assert (Hlen : len (join (l :: q :: rest) newline) =
                   len l + 1 + len (join (q :: rest) newline)).
    { rewrite Hj, len_app. unfold len. simpl length. lia. }
    rewrite Hlen in Hcur.
    assert (Hb : before =
                 l ++ "010"%char :: firstn (Z.to_nat (cursor - (pos + len l + 1)))
                                   (join (q :: rest) newline)).
    { unfold before. rewrite Hj, firstn_app. unfold len in *.
      rewrite firstn_all2 by lia. f_equal.
      replace (Z.to_nat (cursor - pos) - length l)%nat
        with (S (Z.to_nat (cursor - (pos + Z.of_nat (length l) + 1))))
        by lia.
      reflexivity. }
    rewrite Hb, split_line_cons by assumption.
    rewrite IH; auto; [|discriminate|lia].
    cbv zeta. cbn [length].
    pose proof (split_lines_nonempty
                  (firstn (Z.to_nat (cursor - (pos + len l + 1)))
                          (join (q :: rest) newline))) as Hs.
    destruct (split _ newline) as [|x xs] eqn:E; [congruence|].
    f_equal. cbn [length]. lia.
Qed.

(** X7.  With the cursor inside the content, the status bar shows the
    line and the column of the cursor: the line is one more than the
    number of newline characters before the cursor, the column is one more
    than the number of code units between the last of them (or the start
    of the content) and the cursor.  The line is the one that
    [findPrevious] reports, it is one of the numbers in the gutter, which
    run from 1 to one more than the number of newline characters, and the
    character count is the length of the content. *)
Theorem updateStatusBar_shows_cursor_position (a : edita) :
  0 <= selectionStart a <= len (value a) ->
  let before := substring (value a) 0 (selectionStart a) in
  let bar := updateStatusBar a in
  barLine bar = 1 + Z.of_nat (newlines before) /\
  barCol bar = 1 + len (last (split before newline) []) /\
  barLine bar = lineNumberAt a /\
  In (barLine bar) (updateLineNumbers a) /\
  (forall n, In n (updateLineNumbers a) <->
             1 <= n <= 1 + Z.of_nat (newlines (value a))) /\
  charCount bar = len (value a).
Proof.
  intros Hsel before bar.
  assert (Hb : before = firstn (Z.to_nat (selectionStart a - 0))
                               (join (split (value a) newline) newline)).
  { unfold before. rewrite substring_0, clamp_id, join_lines, Z.sub_0_r by lia.
    reflexivity. }
  pose proof (lineColLoop_spec (split (value a) newline) 0 0
                (selectionStart a) (split_lines_free _)
                (split_lines_nonempty _)) as Hloop.
  rewrite join_lines in Hloop. specialize (Hloop ltac:(lia)).
  cbv zeta in Hloop. rewrite join_lines in Hb. rewrite <- Hb in Hloop.
  assert (Hline : barLine bar = 1 + Z.of_nat (newlines before)).
  { unfold bar, updateStatusBar. cbn [barLine]. rewrite Hloop.
    cbn [fst]. rewrite length_split_lines. lia. }
  assert (Hgutter : forall n, In n (updateLineNumbers a) <->
                              1 <= n <= 1 + Z.of_nat (newlines (value a))).
  { intros n. unfold updateLineNumbers. rewrite length_split_lines.
    rewrite in_map_iff. split.
    - intros (i & <- & Hi). apply in_seq in Hi. lia.
    - intros Hn. exists (Z.to_nat (n - 1)). split; [lia|].
      apply in_seq. lia. }
  split; [exact Hline|]. split; [|split; [|split; [|split]]].
  - unfold bar, updateStatusBar. cbn [barCol]. now rewrite Hloop.
  - rewrite Hline. unfold lineNumberAt. fold before.
    rewrite length_split_lines. lia.
  - apply Hgutter. rewrite Hline. split; [lia|].
    assert (newlines before <= newlines (value a))%nat; [|lia].
    assert (Hc : newlines (value a) =
                 (newlines (firstn (Z.to_nat (selectionStart a)) (value a)) +
                  newlines (skipn (Z.to_nat (selectionStart a)) (value a)))%nat).
    { unfold newlines. rewrite <- count_occ_app. now rewrite firstn_skipn. }
    unfold before. rewrite substring_0, clamp_id by lia. lia.
  - exact Hgutter.
  - reflexivity.
Qed.

Lemma updateStatusBar_shows_cursor_position_witness :
  let a := mkEdita (lit "ab" ++ newline ++ lit "cde") 5 5 [] 0 Blank [] in
  0 <= selectionStart a <= len (value a) /\
  barLine (updateStatusBar a) = 2 /\ barCol (updateStatusBar a) = 3.
Proof.
  intros a.
  assert (H : 0 <= selectionStart a <= len (value a))
    by (unfold len; simpl; lia).
  split; [exact H|].
  destruct (updateStatusBar_shows_cursor_position a H) as (H1 & H2 & _).
  split; [exact H1 | exact H2].
Defined.

(* ------------------------------------------------------------------ *)
(** ** [goToLine] *)

Lemma len_cons (c : ascii) (s : text) : len (c :: s) = 1 + len s.
Proof. unfold len. simpl length. lia. Qed.

(** Line [k] inside the joined lines; the loop of [goToLine] counts the
    code units before it. *)
Lemma join_nth_line :
  forall (L : list text) (k : nat) (c0 : Z),
    (k < length L)%nat ->
    exists pre post,
      join L newline = pre ++ nth k L [] ++ post /\
      charCountLoop L k c0 = c0 + len pre.
Proof.
  induction L as [|l rest IH]; intros k c0 Hk; [simpl in Hk; lia|].
  destruct k as [|k].
  - exists [], (match rest with
                | [] => []
                | _ :: _ => newline ++ join rest newline
                end).
    split; [|simpl; unfold len; simpl; lia].
    destruct rest; simpl; [now rewrite app_nil_r | reflexivity].
  - simpl in Hk. destruct rest as [|q rest]; [simpl in Hk; lia|].
    destruct (IH k (c0 + len l + 1)) as (pre & post & Hj & Hc);
      [simpl; simpl in Hk; lia|].
    exists (l ++ newline ++ pre), post. split.
    + rewrite join_cons by discriminate. rewrite Hj.
      change (nth (S k) (l :: q :: rest) []) with (nth k (q :: rest) []).
      now rewrite <- !app_assoc.
    + change (charCountLoop (l :: q :: rest) (S k) c0)
        with (charCountLoop (q :: rest) k (c0 + len l + 1)).
      rewrite Hc, !len_app. unfold newline. rewrite len_cons.
      change (len []) with 0. lia.
Qed.

Lemma charCountLoop_ge (L : list text) :
  forall (k : nat) (c0 : Z), c0 <= charCountLoop L k c0.
Proof.
  induction L as [|l rest IH]; intros [|k] c0; simpl; try lia.
  specialize (IH k (c0 + len l + 1)). pose proof (len_nonneg l). lia.
Qed.

Lemma charCountLoop_all (L : list text) :
  forall (k : nat) (c0 : Z),
    L <> [] -> (length L <= k)%nat ->
    charCountLoop L k c0 = c0 + len (join L newline) + 1.
Proof.
  induction L as [|l rest IH]; intros k c0 Hne Hk; [congruence|].
  destruct k as [|k]; [simpl in Hk; lia|].
  destruct rest as [|q rest].
  - simpl. destruct k; lia.
  - change (charCountLoop (l :: q :: rest) (S k) c0)
      with (charCountLoop (q :: rest) k (c0 + len l + 1)).
    rewrite IH; [|discriminate|simpl in *; lia].
    rewrite (join_cons l) by discriminate. rewrite !len_app.
    unfold newline. rewrite len_cons. change (len []) with 0. lia.
Qed.

Lemma lineColLoop_line_start :
  forall (L : list text) (k : nat) (i pos : Z),
    (k < length L)%nat ->
    lineColLoop L i pos (charCountLoop L k pos) = (i + Z.of_nat k + 1, 1).
Proof.
  induction L as [|l rest IH]; intros k i pos Hk; [simpl in Hk; lia|].
  pose proof (len_nonneg l) as Hl.
  destruct k as [|k]; simpl lineColLoop; simpl charCountLoop.
  - destruct (Z.geb_spec (pos + len l) pos); [|lia]. f_equal; lia.
  - pose proof (charCountLoop_ge rest k (pos + len l + 1)).
    destruct (Z.geb_spec (pos + len l)
                         (charCountLoop rest k (pos + len l + 1))); [lia|].
    rewrite IH by (simpl in Hk; lia). f_equal. lia.
Qed.

(** What [goToLine] selects, for every line number. *)
Lemma goToLine_spec (n : Z) (a : edita) :
  let lines := split (value a) newline in
  let a' := goToLine n a in
  value a' = value a /\ tabs a' = tabs a /\
  (1 <= n <= Z.of_nat (length lines) ->
   substring (value a') (selectionStart a') (selectionEnd a') =
   nth (Z.to_nat (n - 1)) lines [] /\
   barLine (updateStatusBar a') = n /\ barCol (updateStatusBar a') = 1) /\
  (Z.of_nat (length lines) < n ->
   selectionStart a' = len (value a) /\ selectionEnd a' = len (value a)) /\
  (n <= 0 -> selectionStart a' = 0 /\ selectionEnd a' = 0).
Proof.
  intros lines a'. split; [reflexivity|]. split; [reflexivity|].
  pose proof (len_nonneg (value a)) as Hv.
  split; [|split].
  - intros Hn.
    assert (Hk : (Z.to_nat (n - 1) < length lines)%nat) by lia.
    destruct (join_nth_line lines (Z.to_nat (n - 1)) 0 Hk)
      as (pre & post & Hj & Hc).
    unfold lines in Hj at 1. rewrite join_lines in Hj.
    set (line_ := nth (Z.to_nat (n - 1)) lines []) in *.
    assert (Hmin : Z.to_nat (Z.min (n - 1) (Z.of_nat (length lines))) =
                   Z.to_nat (n - 1)) by lia.
    assert (Hlen : lengthAt lines (n - 1) = len line_).
    { unfold lengthAt.
      destruct (Z.leb_spec 0 (n - 1)); [|lia].
      destruct (Z.ltb_spec (n - 1) (Z.of_nat (length lines))); [|lia].
      reflexivity. }
    assert (Ha' : a' = setSelectionRange (len pre) (len pre + len line_) a).
    { unfold a', goToLine. fold lines. rewrite Hmin, Hlen, Hc.
      reflexivity. }
    pose proof (len_nonneg pre). pose proof (len_nonneg line_).
    pose proof (len_nonneg post).
    assert (Hfit : len pre + len line_ <= len (value a))
      by (rewrite Hj, !len_app; lia).
    destruct (setSelectionRange_match (len pre) (len line_) a)
      as [Hs He]; try lia.
    rewrite <- Ha' in Hs, He.
    change (value a') with (value a). rewrite Hs, He. split; [|split].
    + rewrite substring_range by lia. rewrite Hj. unfold len.
      rewrite Nat2Z.id, skipn_app, skipn_all, Nat.sub_diag. simpl.
      replace (Z.to_nat (Z.of_nat (length pre) + Z.of_nat (length line_) -
                         Z.of_nat (length pre)))
        with (length line_ + 0)%nat by lia.
      now rewrite firstn_app_2, app_nil_r.
    + unfold updateStatusBar. cbn [barLine].
      change (value a') with (value a). fold lines. rewrite Hs.
      replace (len pre) with (charCountLoop lines (Z.to_nat (n - 1)) 0)
        by lia.
      rewrite lineColLoop_line_start by assumption. cbn [fst]. lia.
    + unfold updateStatusBar. cbn [barCol].
      change (value a') with (value a). fold lines. rewrite Hs.
      replace (len pre) with (charCountLoop lines (Z.to_nat (n - 1)) 0)
        by lia.
      now rewrite lineColLoop_line_start by assumption.
  - intros Hn. unfold a', goToLine. fold lines.
    rewrite charCountLoop_all; [|apply split_lines_nonempty|lia].
    assert (Hjl : join lines newline = value a) by apply join_lines.
    assert (Hlen : lengthAt lines (n - 1) = 0).
    { unfold lengthAt.
      destruct (Z.ltb_spec (n - 1) (Z.of_nat (length lines))); [lia|].
      now rewrite andb_false_r. }
    rewrite Hlen. unfold setSelectionRange, clamp. simpl. rewrite !Hjl. lia.
  - intros Hn. unfold a', goToLine. fold lines.
    replace (Z.to_nat (Z.min (n - 1) (Z.of_nat (length lines)))) with O by lia.
    assert (Hlen : lengthAt lines (n - 1) = 0).
    { unfold lengthAt. destruct (Z.leb_spec 0 (n - 1)); [lia|reflexivity]. }
    rewrite Hlen. destruct lines; unfold setSelectionRange, clamp; simpl; lia.
Qed.

(** X8.  [goToLine(n)] for a line [n] of the content selects exactly
    that line, without its newline, and the status bar then shows line
    [n], column 1.  For [n] beyond the last line the cursor is put at the
    end of the content, for [n <= 0] at its start. *)
Theorem goToLine_selects_the_line (n : Z) (a : edita) :
  let lines := split (value a) newline in
  let a' := goToLine n a in
  value a' = value a /\ tabs a' = tabs a /\
  (1 <= n <= Z.of_nat (length lines) ->
   substring (value a') (selectionStart a') (selectionEnd a') =
   nth (Z.to_nat (n - 1)) lines [] /\
   barLine (updateStatusBar a') = n /\ barCol (updateStatusBar a') = 1) /\
  (Z.of_nat (length lines) < n ->
   selectionStart a' = len (value a) /\ selectionEnd a' = len (value a)) /\
  (n <= 0 -> selectionStart a' = 0 /\ selectionEnd a' = 0).
Proof. exact (goToLine_spec n a). Qed.

Lemma goToLine_selects_the_line_witness :
  let a := mkEdita (lit "ab" ++ newline ++ lit "cde") 0 0 [] 0 Blank [] in
  1 <= 2 <= Z.of_nat (length (split (value a) newline)) /\
  substring (value (goToLine 2 a)) (selectionStart (goToLine 2 a))
            (selectionEnd (goToLine 2 a)) = lit "cde".
Proof.
  intros a.
  assert (H : 1 <= 2 <= Z.of_nat (length (split (value a) newline)))
    by (simpl; lia).
  split; [exact H|].
  exact (proj1 (proj1 (proj2 (proj2 (goToLine_selects_the_line 2 a))) H)).
Defined.

(* ------------------------------------------------------------------ *)
(** ** Tabs *)



Lemma switchTab_found (i : Z) (a : edita) (t : tab) :
  findTab i (tabs a) = Some t ->
  value (switchTab i a) = content t /\
  activeTabId (switchTab i a) = i /\
  tabs (switchTab i a) = tabs a.
Proof.
  intros H. unfold switchTab. rewrite H. simpl.
  now rewrite value_setValue, setValue_tabs.
Qed.






Lemma sameDocument_trans (a b c : edita) :
  sameDocument a b -> sameDocument b c -> sameDocument a c.
Proof. unfold sameDocument. intuition congruence. Qed.

















(* ------------------------------------------------------------------ *)
(** ** The Tab key *)

(** X11.  [handleKeydown] acts on the Tab key only.  With the selection
    inside the content it puts four spaces in place of the selected text
    and the cursor right after them.  It does not store the new text in
    the active tab: when the tabs were in step with the editor, switching
    to another tab and back right after the key shows the content as it
    was before the key. *)
Theorem handleKeydown_tab_is_not_stored (key : text) (a : edita) :
  0 <= selectionStart a <= selectionEnd a ->
  selectionEnd a <= len (value a) ->
  (key <> lit "Tab" -> handleKeydown key a = a) /\
  let a' := handleKeydown (lit "Tab") a in
  value a' =
    firstn (Z.to_nat (selectionStart a)) (value a) ++ lit "    " ++
    skipn (Z.to_nat (selectionEnd a)) (value a) /\
  selectionStart a' = selectionStart a + 4 /\
  selectionEnd a' = selectionStart a + 4 /\
  tabs a' = tabs a /\
  (inStep a ->
   forall other t, findTab other (tabs a) = Some t ->
     value (switchTab (activeTabId a) (switchTab other a')) = value a).
Proof.
  intros Hsel Hend. split.
  - intros Hkey. unfold handleKeydown, textEqb.
    destruct (list_eq_dec ascii_dec key (lit "Tab")); [contradiction|].
    reflexivity.
  - set (v := firstn (Z.to_nat (selectionStart a)) (value a) ++ lit "    " ++
              skipn (Z.to_nat (selectionEnd a)) (value a)).
    assert (Ha' : handleKeydown (lit "Tab") a =
                  setCursor (selectionStart a + 4) (setValue v a)).
    { unfold handleKeydown, substringFrom. change (textEqb _ _) with true.
      cbv iota zeta. rewrite substring_0, !clamp_id by lia. reflexivity. }
    cbv zeta. rewrite Ha'.
    assert (Hlen : selectionStart a + 4 <= len v).
    { unfold v. rewrite !len_app.
      pose proof (len_nonneg (skipn (Z.to_nat (selectionEnd a)) (value a))).
      change (len (lit "    ")) with 4.
      unfold len in *. rewrite length_firstn. lia. }
    destruct (setSelectionRange_match (selectionStart a + 4) 0
                (setValue v a)) as [Hs He];
      try lia; [rewrite value_setValue; lia|].
    rewrite Z.add_0_r in Hs, He. unfold setCursor.
    split; [simpl; apply value_setValue|]. split; [exact Hs|].
    split; [exact He|]. split; [simpl; apply setValue_tabs|].
    intros [Hnd (t0 & Hact & Hc)] other t Hother.
    set (a1 := setSelectionRange (selectionStart a + 4)
                                 (selectionStart a + 4) (setValue v a)).
    assert (Ht1 : tabs a1 = tabs a) by (simpl; apply setValue_tabs).
    destruct (switchTab_found other a1 t) as (_ & _ & Ht2);
      [now rewrite Ht1|].
    destruct (switchTab_found (activeTabId a) (switchTab other a1) t0)
      as (Hv & _ & _); [now rewrite Ht2, Ht1|].
    now rewrite Hv.
Qed.

Lemma handleKeydown_tab_is_not_stored_witness :
  let a := mkEdita (lit "abc") 1 2
                   [mkTab 0 (lit "Untitled") (lit "abc") false;
                    mkTab 1 (lit "other") (lit "x") false] 0 Blank [] in
  0 <= selectionStart a <= selectionEnd a /\
  selectionEnd a <= len (value a) /\
  value (handleKeydown (lit "Tab") a) = lit "a    c".
Proof.
  intros a.
  assert (H1 : 0 <= selectionStart a <= selectionEnd a) by (simpl; lia).
  assert (H2 : selectionEnd a <= len (value a)) by (unfold len; simpl; lia).
  split; [exact H1|]. split; [exact H2|].
  exact (proj1 (proj2 (handleKeydown_tab_is_not_stored (lit "Tab") a H1 H2))).
Defined.

(* ------------------------------------------------------------------ *)
(** ** The style-sheet formatter *)

Lemma withoutSpaces_app (s t : text) :
  withoutSpaces (s ++ t) = withoutSpaces s ++ withoutSpaces t.
Proof. apply filter_app. Qed.

Lemma withoutSpaces_cons (c : ascii) (s : text) :
  withoutSpaces (c :: s) =
  if isSpace c then withoutSpaces s else c :: withoutSpaces s.
Proof. unfold withoutSpaces. simpl. now destruct (isSpace c). Qed.

Lemma withoutSpaces_rev (s : text) :
  withoutSpaces (rev s) = rev (withoutSpaces s).
Proof.
  induction s as [|c s IH]; [reflexivity|].
  simpl rev. rewrite withoutSpaces_app, IH, !withoutSpaces_cons.
  destruct (isSpace c); simpl; [apply app_nil_r | reflexivity].
Qed.

Lemma withoutSpaces_indentation (indent : Z) :
  withoutSpaces (indentation indent) = [].
Proof.
  unfold indentation. induction (Z.to_nat indent) as [|n IH]; [reflexivity|].
  change (concat (repeat (lit "  ") (S n)))
    with (lit "  " ++ concat (repeat (lit "  ") n)).
  rewrite withoutSpaces_app, IH. reflexivity.
Qed.

Lemma withoutSpaces_trimStart (s : text) :
  withoutSpaces (trimStart s) = withoutSpaces s.
Proof.
  induction s as [|c s IH]; [reflexivity|].
  simpl trimStart. rewrite (withoutSpaces_cons c s).
  destruct (isSpace c) eqn:E; [exact IH|].
  rewrite withoutSpaces_cons, E. reflexivity.
Qed.

Lemma withoutSpaces_trim (s : text) : withoutSpaces (trim s) = withoutSpaces s.
Proof.
  unfold trim.
  now rewrite withoutSpaces_rev, withoutSpaces_trimStart, withoutSpaces_rev,
    rev_involutive, withoutSpaces_trimStart.
Qed.

Lemma trimStart_nil_iff (s : text) : trimStart s = [] <-> withoutSpaces s = [].
Proof.
  induction s as [|c s IH]; [tauto|].
  simpl trimStart. rewrite withoutSpaces_cons.
  destruct (isSpace c); [exact IH|]. split; discriminate.
Qed.

Lemma rev_nil_iff (s : text) : rev s = [] <-> s = [].
Proof.
  split; [|now intros ->]. intros H.
  rewrite <- (rev_involutive s), H. reflexivity.
Qed.

Lemma trim_nil_iff (s : text) : trim s = [] <-> withoutSpaces s = [].
Proof.
  unfold trim.
  rewrite rev_nil_iff, trimStart_nil_iff, withoutSpaces_rev, rev_nil_iff,
    withoutSpaces_trimStart.
  tauto.
Qed.

Lemma trimStart_head (s : text) (c : ascii) :
  hd_error (trimStart s) = Some c -> isSpace c = false.
Proof.
  induction s as [|d s IH]; [discriminate|].
  simpl trimStart. destruct (isSpace d) eqn:E; [exact IH|].
  simpl. congruence.
Qed.

Lemma trimStart_last (s : text) (d : ascii) :
  isSpace d = false -> exists w, trimStart (s ++ [d]) = w ++ [d].
Proof.
  intros Hd. induction s as [|c s IH]; simpl.
  - rewrite Hd. now exists [].
  - destruct (isSpace c); [exact IH|]. now exists (c :: s).
Qed.

Lemma trim_ends (s : text) (c : ascii) :
  hd_error (trim s) = Some c \/ hd_error (rev (trim s)) = Some c ->
  isSpace c = false.
Proof.
  unfold trim. rewrite rev_involutive. intros [Hc | Hc].
  - set (u := trimStart s) in Hc.
    assert (Hu : forall d, hd_error u = Some d -> isSpace d = false)
      by (intros d; apply trimStart_head).
    destruct u as [|d u']; [discriminate|].
    pose proof (Hu d eq_refl) as Hd.
    destruct (trimStart_last (rev u') d Hd) as [w Hw].
    simpl rev in Hc. rewrite Hw, rev_app_distr in Hc.
    injection Hc as ->. exact Hd.
  - now apply trimStart_head in Hc.
Qed.

Lemma withoutSpaces_collapseSpaces (s : text) :
  forall inRun, withoutSpaces (collapseSpaces s inRun) = withoutSpaces s.
Proof.
  induction s as [|c s IH]; intros inRun; [reflexivity|].
  simpl collapseSpaces. rewrite (withoutSpaces_cons c s).
  destruct (isSpace c) eqn:E.
  - destruct inRun; [apply IH|].
    rewrite withoutSpaces_cons. change (isSpace " "%char) with true. apply IH.
  - rewrite withoutSpaces_cons, E, IH. reflexivity.
Qed.

Lemma withoutSpaces_formatCssLoop (t : text) :
  forall (formatted : text) (indent : Z),
    withoutSpaces (formatCssLoop t formatted indent) =
    withoutSpaces formatted ++ withoutSpaces t.
Proof.
  induction t as [|char rest IH]; intros formatted indent.
  - simpl. now rewrite app_nil_r.
  - cbn [formatCssLoop].
    destruct (Ascii.eqb char "{"%char) eqn:E1.
    { apply Ascii.eqb_eq in E1. subst char.
      rewrite IH, !withoutSpaces_app, <- app_assoc. reflexivity. }
    destruct (Ascii.eqb char "}"%char) eqn:E2.
    { apply Ascii.eqb_eq in E2. subst char. rewrite IH.
      destruct (nextIsNotClosing rest);
        rewrite !withoutSpaces_app, withoutSpaces_indentation,
          <- ?app_assoc; reflexivity. }
    destruct (Ascii.eqb char ";"%char && (0 <? indent)) eqn:E3.
    { apply andb_true_iff in E3 as [E3 _].
      apply Ascii.eqb_eq in E3. subst char. rewrite IH.
      destruct (nextIsNotClosing rest);
        rewrite !withoutSpaces_app, ?withoutSpaces_indentation,
          <- ?app_assoc; reflexivity. }
    destruct (Ascii.eqb char " "%char && endsWith formatted newline) eqn:E4.
    { apply andb_true_iff in E4 as [E4 _].
      apply Ascii.eqb_eq in E4. subst char. rewrite IH. reflexivity. }
    rewrite IH.
    replace (withoutSpaces (char :: rest))
      with (withoutSpaces [char] ++ withoutSpaces rest)
      by (rewrite <- withoutSpaces_app; reflexivity).
    rewrite app_assoc. f_equal.
    match goal with |- context [if ?b then _ else _] => destruct b end;
      rewrite !withoutSpaces_app, ?withoutSpaces_indentation, ?app_nil_r;
      reflexivity.
Qed.

(** X12.  [formatCss] changes white space only: taken without their
    white space, the formatted text and the text given are the same
    sequence of characters, whatever the braces and semicolons in it.
    The result neither begins nor ends with white space, and it is empty
    exactly when the text given is white space only. *)
Theorem formatCss_changes_only_white_space (t : text) :
  withoutSpaces (formatCss t) = withoutSpaces t /\
  (formatCss t = [] <-> withoutSpaces t = []) /\
  (forall c, hd_error (formatCss t) = Some c \/
             hd_error (rev (formatCss t)) = Some c ->
             isSpace c = false).
Proof.
  assert (H : withoutSpaces (formatCss t) = withoutSpaces t).
  { unfold formatCss.
    now rewrite withoutSpaces_trim, withoutSpaces_formatCssLoop,
      withoutSpaces_trim, withoutSpaces_collapseSpaces. }
  split; [exact H|]. split.
  - rewrite <- H. unfold formatCss. rewrite withoutSpaces_trim.
    apply trim_nil_iff.
  - intros c. unfold formatCss. apply trim_ends.
Qed.

(* ------------------------------------------------------------------ *)
(** ** The language of a file name *)

Lemma last_splitScan_char (c : ascii) (e : text) :
  ~ In c e ->
  forall (b cur : text), last (splitScan [c] (b ++ c :: e) 0 cur) [] = e.
Proof.
  intros He. induction b as [|x b IH]; intros cur.
  - rewrite app_nil_l, splitScan_char_step, Ascii.eqb_refl.
    rewrite <- (app_nil_r e) at 1.
    rewrite (splitScan_char_app c e He [] []). simpl.
    now rewrite app_nil_r, rev_involutive.
  - rewrite <- app_comm_cons, splitScan_char_step.
    destruct (Ascii.eqb c x); [|apply IH].
    specialize (IH []).
    pose proof (splitScan_nonempty [c] (b ++ c :: e) 0 []) as Hne.
    destruct (splitScan [c] (b ++ c :: e) 0 []); [congruence|exact IH].
Qed.

Lemma split_char_single (c : ascii) (e : text) :
  ~ In c e -> split e [c] = [e].
Proof.
  intros He. unfold split. rewrite <- (app_nil_r e) at 1.
  rewrite (splitScan_char_app c e He [] []). simpl.
  now rewrite app_nil_r, rev_involutive.
Qed.

Lemma toLowerCaseChar_dot (c : ascii) :
  toLowerCaseChar c = "."%char -> c = "."%char.
Proof. destruct c as [[] [] [] [] [] [] [] []]; vm_compute; congruence. Qed.

Lemma toLowerCase_dot_free (e : text) :
  ~ In "."%char e -> ~ In "."%char (toLowerCase e).
Proof.
  intros He Hin. apply in_map_iff in Hin as (c & Hc & Hin).
  apply toLowerCaseChar_dot in Hc. now subst c.
Qed.

Lemma toLowerCase_idem (s : text) :
  toLowerCase (toLowerCase s) = toLowerCase s.
Proof.
  unfold toLowerCase. rewrite map_map. apply map_ext.
  intros c. apply toLowerCaseChar_idem.
Qed.

Lemma textEqb_eq (a b : text) : textEqb a b = true <-> a = b.
Proof.
  unfold textEqb. destruct (list_eq_dec ascii_dec a b); split; congruence.
Qed.

Lemma detectLanguage_extension (ext : text) :
  ~ In "."%char ext ->
  detectLanguage ext =
  match langMap (toLowerCase ext) with
  | Some v => v
  | None => Name (lit "text")
  end.
Proof.
  intros He. unfold detectLanguage.
  change (lit ".") with ["."%char]. now rewrite (split_char_single _ _ He).
Qed.

(** X13.  [detectLanguage] reads the text after the last dot of the file
    name and ignores its letter case; a name without a dot is read as an
    extension itself.  The answer is one of the seven language names,
    with two exceptions: for the extensions "constructor" and "__proto__"
    (in any letter case) the look-up finds the property every object
    inherits, and the answer is not a language name but the function
    [Object], resp. the object [Object.prototype]. *)
Theorem detectLanguage_reads_the_last_extension (base ext : text) :
  ~ In "."%char ext ->
  detectLanguage (base ++ "."%char :: ext) = detectLanguage ext /\
  detectLanguage (toLowerCase ext) = detectLanguage ext /\
  In (detectLanguage ext)
     [Name (lit "javascript"); Name (lit "python"); Name (lit "html");
      Name (lit "css"); Name (lit "json"); Name (lit "markdown");
      Name (lit "text"); ObjectConstructor; ObjectPrototype] /\
  (detectLanguage ext = ObjectConstructor <->
   toLowerCase ext = lit "constructor") /\
  (detectLanguage ext = ObjectPrototype <->
   toLowerCase ext = lit "__proto__").
Proof.
  intros He. split; [|split; [|split; [|split]]].
  - unfold detectLanguage at 1. change (lit ".") with ["."%char].
    unfold split. rewrite (last_splitScan_char _ _ He).
    symmetry. now apply detectLanguage_extension.
  - rewrite !detectLanguage_extension, ?toLowerCase_idem;
      auto using toLowerCase_dot_free.
  - rewrite (detectLanguage_extension _ He). unfold langMap.
    repeat (destruct (textEqb _ _); [simpl; tauto|]). simpl; tauto.
  - rewrite (detectLanguage_extension _ He).
    destruct (list_eq_dec ascii_dec (toLowerCase ext) (lit "constructor"))
      as [e|n].
    + rewrite e. split; reflexivity.
    + split; [|contradiction]. unfold langMap.
      repeat (match goal with
              | |- context [textEqb ?x ?y] => destruct (textEqb x y) eqn:?E
              end; cbv iota);
        try discriminate.
      match goal with
      | H : textEqb _ (lit "constructor") = true |- _ =>
          apply textEqb_eq in H; contradiction
      end.
  - rewrite (detectLanguage_extension _ He).
    destruct (list_eq_dec ascii_dec (toLowerCase ext) (lit "__proto__"))
      as [e|n].
    + rewrite e. split; reflexivity.
    + split; [|contradiction]. unfold langMap.
      repeat (match goal with
              | |- context [textEqb ?x ?y] => destruct (textEqb x y) eqn:?E
              end; cbv iota);
        try discriminate.
      match goal with
      | H : textEqb _ (lit "__proto__") = true |- _ =>
          apply textEqb_eq in H; contradiction
      end.
Qed.

Lemma detectLanguage_reads_the_last_extension_witness :
  ~ In "."%char (lit "Constructor") /\
  detectLanguage (lit "notes.v2.Constructor") = ObjectConstructor.
Proof.
  assert (H : ~ In "."%char (lit "Constructor")).
  { intros Hin. cbv in Hin. intuition discriminate. }
  split; [exact H|].
  rewrite (proj1 (detectLanguage_reads_the_last_extension
                    (lit "notes.v2") (lit "Constructor") H)
           : detectLanguage (lit "notes.v2.Constructor") = _).
  apply (proj1 (proj2 (proj2 (proj2
           (detectLanguage_reads_the_last_extension
              (lit "notes.v2") (lit "Constructor") H))))).
  reflexivity.
Defined.

(* ------------------------------------------------------------------ *)
(** ** Counting in all files *)

Lemma line_numberLines (lines : list text) :
  forall index, map line (numberLines lines index) = lines.
Proof.
  induction lines as [|l lines IH]; intros index; simpl; [reflexivity|].
  now rewrite IH.
Qed.

Lemma hasMatchingLine_iff (term : text) (cs ww : bool) (t : tab) :
  hasMatchingLine term cs ww t = true <->
  exists l, In l (split (content t) newline) /\
            lineHasMatch term cs ww l = true.
Proof.
  unfold hasMatchingLine, matchingLines.
  set (ms := numberLines (split (content t) newline) 0).
  rewrite <- (line_numberLines (split (content t) newline) 0). fold ms.
  split.
  - destruct (filter _ ms) as [|m rest] eqn:E; [discriminate|]. intros _.
    assert (Hin : In m (filter (fun m => lineHasMatch term cs ww (line m)) ms))
      by (rewrite E; now left).
    apply filter_In in Hin as [Hin Hm].
    exists (line m). split; [now apply in_map|exact Hm].
  - intros (l & Hin & Hl). apply in_map_iff in Hin as (m & <- & Hin).
    assert (Hf : In m (filter (fun m => lineHasMatch term cs ww (line m)) ms))
      by (apply filter_In; now split).
    destruct (filter _ ms); [contradiction|reflexivity].
Qed.

Lemma countMatchingLines_files (term : text) (cs ww : bool) (ts : list tab) :
  Z.of_nat (length (filter (hasMatchingLine term cs ww) ts)) <=
  countMatchingLines term cs ww ts.
Proof.
  induction ts as [|t ts IH]; simpl; [lia|].
  unfold hasMatchingLine at 1.
  destruct (matchingLines term cs ww t); simpl length; lia.
Qed.

Lemma countMatchingLines_zero (term : text) (cs ww : bool) (ts : list tab) :
  countMatchingLines term cs ww ts = 0 <->
  filter (hasMatchingLine term cs ww) ts = [].
Proof.
  induction ts as [|t ts IH]; simpl; [tauto|].
  pose proof (countMatchingLines_files term cs ww ts) as Hle.
  unfold hasMatchingLine at 1.
  destruct (matchingLines term cs ww t); simpl length.
  - rewrite <- IH. lia.
  - split; [lia|discriminate].
Qed.

(** X14.  With the scope "all files" [countOccurrences] counts lines,
    not occurrences, and reads the contents stored in the tabs, not the
    text in the editor.  The files counted are the tabs with a line on
    which the line test succeeds; with none the status is "No matches
    found in any file", otherwise it gives the number of matching lines
    and the number of these tabs, which is at least one, at most the
    number of lines and at most the number of tabs.  The editor, the
    selection, the tabs and the error log stay as they are. *)
Theorem countOccurrences_all_files_counts_lines (d : dialog) (a : edita) :
  findInput d <> [] ->
  searchScopeCurrent d = false ->
  let a' := countOccurrences d a in
  let hits :=
    filter (hasMatchingLine (findInput d) (caseSensitive d) (wholeWord d))
           (tabs a) in
  let total :=
    countMatchingLines (findInput d) (caseSensitive d) (wholeWord d)
                       (tabs a) in
  (forall t, In t hits <->
             In t (tabs a) /\
             exists l, In l (split (content t) newline) /\
                       lineHasMatch (findInput d) (caseSensitive d)
                                    (wholeWord d) l = true) /\
  (hits = [] -> findResults a' = NoMatchesInAnyFile) /\
  (hits <> [] ->
   findResults a' = FoundInFiles total (Z.of_nat (length hits)) /\
   1 <= Z.of_nat (length hits) <= total /\
   (length hits <= length (tabs a))%nat) /\
  value a' = value a /\
  selectionStart a' = selectionStart a /\
  selectionEnd a' = selectionEnd a /\
  tabs a' = tabs a /\
  activeTabId a' = activeTabId a /\
  errors a' = errors a.
Proof.
  intros Hne Hscope a' hits total.
  assert (Hfold :
    searchInAllFiles (tabs a) (findInput d) (caseSensitive d) (wholeWord d) =
    mkSearchResult total
      (map (fun t => mkFileResult t
              (matchingLines (findInput d) (caseSensitive d) (wholeWord d) t))
           hits)).
  { unfold searchInAllFiles. rewrite searchInAllFiles_fold. reflexivity. }
  assert (Hempty : isEmpty (findInput d) = false)
    by (unfold isEmpty; destruct (findInput d); congruence).
  assert (Ha' : a' =
    if total =? 0 then setFindResults NoMatchesInAnyFile a
    else setFindResults (FoundInFiles total (Z.of_nat (length hits))) a).
  { unfold a', countOccurrences. rewrite Hempty, Hscope, Hfold.
    cbn [totalMatches fileResults]. now rewrite length_map. }
  pose proof (countMatchingLines_files (findInput d) (caseSensitive d)
                (wholeWord d) (tabs a)) as Hle.
  pose proof (countMatchingLines_zero (findInput d) (caseSensitive d)
                (wholeWord d) (tabs a)) as Hzero.
  fold hits in Hle, Hzero. fold total in Hle, Hzero.
  split; [|split; [|split]].
  - intros t. unfold hits. rewrite filter_In, hasMatchingLine_iff. tauto.
  - intros Hh. apply Hzero in Hh. rewrite Ha', Hh. reflexivity.
  - intros Hh.
    assert (Hlen : 1 <= Z.of_nat (length hits))
      by (destruct hits; [congruence|simpl length; lia]).
    assert (Ht : (total =? 0) = false) by (apply Z.eqb_neq; lia).
    rewrite Ha', Ht. split; [reflexivity|]. split; [lia|].
    apply filter_length_le.
  - rewrite Ha'. destruct (total =? 0); simpl; tauto.
Qed.

Lemma countOccurrences_all_files_counts_lines_witness :
  let d := mkDialog (lit "foo") (lit "") true false false in
  let a := mkEdita (lit "draft") 0 0
             [mkTab 1 (lit "one") (lit "foo foo" ++ newline ++ lit "bar foo")
                    false;
              mkTab 2 (lit "two") (lit "baz") false] 1 Blank [] in
  findInput d <> [] /\ searchScopeCurrent d = false /\
  findResults (countOccurrences d a) = FoundInFiles 2 1.
Proof.
  intros d a.
  assert (H1 : findInput d <> []) by discriminate.
  assert (H2 : searchScopeCurrent d = false) by reflexivity.
  split; [exact H1|]. split; [exact H2|].
  refine (proj1 (proj1 (proj2 (proj2
            (countOccurrences_all_files_counts_lines d a H1 H2))) _)).
  vm_compute. discriminate.
Defined.

(* ------------------------------------------------------------------ *)
(** ** The markup formatter *)

Lemma withoutSpaces_closeGaps (s : text) :
  forall drop, withoutSpaces (closeGaps s drop) = withoutSpaces s.
Proof.
  induction s as [|c s IH]; intros drop; [reflexivity|].
  cbn [closeGaps]. destruct (drop && isSpace c) eqn:E.
  - apply andb_true_iff in E as [_ E].
    rewrite IH, withoutSpaces_cons, E. reflexivity.
  - rewrite !withoutSpaces_cons, IH. reflexivity.
Qed.

Lemma untilClose_app (s : text) :
  forall t r, untilClose s = Some (t, r) -> s = t ++ r.
Proof.
  induction s as [|c s IH]; intros t r; simpl; [discriminate|].
  destruct (Ascii.eqb c ">"%char).
  - intros [= <- <-]. reflexivity.
  - destruct (untilClose s) as [[t' r']|]; [|discriminate].
    intros [= <- <-]. simpl. f_equal. now apply IH.
Qed.

Lemma tagAt_app (s t r : text) :
  tagAt s = Some (t, r) ->
  exists c t', t = c :: t' /\ s = c :: t' ++ r.
Proof.
  unfold tagAt. destruct s as [|c [|d s']]; try discriminate.
  destruct (_ && _); [|discriminate].
  destruct (untilClose s') as [[t' r']|] eqn:E; [|discriminate].
  intros [= <- <-]. apply untilClose_app in E. subst s'.
  exists c, (d :: t'). split; reflexivity.
Qed.

Lemma concat_splitTags (s : text) :
  forall (k : nat) (cur : text),
    (k <= length s)%nat ->
    concat (splitTags s k cur) = rev cur ++ skipn k s.
Proof.
  induction s as [|c s IH]; intros k cur Hk.
  - simpl. now rewrite skipn_nil, app_nil_r.
  - cbn [splitTags]. destruct k as [|k].
    + destruct (tagAt (c :: s)) as [[t r]|] eqn:E.
      * apply tagAt_app in E as (c' & t' & -> & Hs).
        injection Hs as <- ->.
        cbn [concat length]. rewrite Nat.sub_succ, Nat.sub_0_r.
        rewrite IH by (rewrite length_app; lia).
        rewrite skipn_app, skipn_all, Nat.sub_diag. reflexivity.
      * rewrite IH by lia. simpl. now rewrite <- app_assoc.
    + rewrite IH by (simpl in Hk; lia). reflexivity.
Qed.

Lemma withoutSpaces_concat_filter (tokens : list text) :
  withoutSpaces (concat (filter (fun t => negb (isEmpty (trim t))) tokens)) =
  withoutSpaces (concat tokens).
Proof.
  induction tokens as [|t tokens IH]; [reflexivity|].
  cbn [filter concat]. rewrite withoutSpaces_app.
  destruct (trim t) eqn:E; cbn [isEmpty negb].
  - apply trim_nil_iff in E. now rewrite E, IH.
  - cbn [concat]. now rewrite withoutSpaces_app, IH.
Qed.

Lemma withoutSpaces_formatXmlHtmlLoop (tokens : list text) :
  forall (formatted : text) (indent : Z),
    withoutSpaces (formatXmlHtmlLoop tokens formatted indent) =
    withoutSpaces formatted ++ withoutSpaces (concat tokens).
Proof.
  induction tokens as [|token rest IH]; intros formatted indent.
  - simpl. now rewrite app_nil_r.
  - cbn [formatXmlHtmlLoop concat]. rewrite (withoutSpaces_app token).
    destruct (startsWith (lit "</") token).
    { rewrite IH, !withoutSpaces_app, withoutSpaces_indentation.
      change (withoutSpaces newline) with (@nil ascii).
      now rewrite app_nil_l, app_nil_r, <- app_assoc. }
    destruct (startsWith (lit "<") token).
    { rewrite IH, !withoutSpaces_app, withoutSpaces_indentation.
      change (withoutSpaces newline) with (@nil ascii).
      now rewrite app_nil_l, app_nil_r, <- app_assoc. }
    destruct (trim token) eqn:E; cbn [isEmpty negb].
    + apply trim_nil_iff in E. now rewrite IH, E.
    + rewrite <- E.
      rewrite IH, !withoutSpaces_app, withoutSpaces_indentation,
        withoutSpaces_trim.
      change (withoutSpaces newline) with (@nil ascii).
      now rewrite app_nil_l, app_nil_r, <- app_assoc.
Qed.

(** X15.  [formatXmlHtml] changes white space only: taken without their
    white space, the formatted text and the text given are the same
    sequence of characters, whatever the tags in it and however they are
    nested.  The result neither begins nor ends with white space, and it
    is empty exactly when the text given is white space only. *)
Theorem formatXmlHtml_changes_only_white_space (t : text) :
  withoutSpaces (formatXmlHtml t) = withoutSpaces t /\
  (formatXmlHtml t = [] <-> withoutSpaces t = []) /\
  (forall c, hd_error (formatXmlHtml t) = Some c \/
             hd_error (rev (formatXmlHtml t)) = Some c ->
             isSpace c = false).
Proof.
  assert (H : withoutSpaces (formatXmlHtml t) = withoutSpaces t).
  { unfold formatXmlHtml. cbv zeta.
    rewrite withoutSpaces_trim, withoutSpaces_formatXmlHtmlLoop,
      withoutSpaces_concat_filter, concat_splitTags by apply Nat.le_0_l.
    apply withoutSpaces_closeGaps. }
  split; [exact H|]. split.
  - rewrite <- H. unfold formatXmlHtml. cbv zeta.
    rewrite withoutSpaces_trim. apply trim_nil_iff.
  - intros c. unfold formatXmlHtml. apply trim_ends.
Qed.
